(** * Users admin dashboard: CSV codec, view projection and optimistic sync

    A shallow embedding of [src/app/page.tsx] (the client page) together
    with the facts about it that the specification states.

    Conventions of the embedding.
    - A JavaScript string is a [string]; each character stands for one code
      unit below 256.
    - A JavaScript [number] used as a record id is an integer or [NaN]
      (see [number] below).
    - React state is an explicit record; an [async] handler is cut at its
      [await] into a part that runs when the handler is called and a part
      that runs when the awaited network call settles. *)

From Stdlib Require Import ZArith List String Ascii Bool Lia.
From Stdlib Require Import DecimalString DecimalZ DecimalPos DecimalN.
From Stdlib Require Import Permutation Sorted.
Import ListNotations.

Open Scope Z_scope.
Open Scope list_scope.

(* ====================================================================== *)
(** ** JavaScript primitives used by the page *)

Module JS.

Definition dquote : ascii := "034"%char.
Definition comma : ascii := ","%char.
Definition LF : ascii := "010"%char.
Definition CR : ascii := "013"%char.

Definition code (c : ascii) : Z := Z.of_nat (nat_of_ascii c).

(** White space and line terminators removed by [String.prototype.trim]
    (TAB, LF, VT, FF, CR, SP, NBSP). *)
Definition is_white (c : ascii) : bool :=
  let n := code c in
  ((9 <=? n) && (n <=? 13)) || (n =? 32) || (n =? 160).

Definition is_empty (s : string) : bool :=
  match s with EmptyString => true | String _ _ => false end.

Fixpoint trimStart (s : string) : string :=
  match s with
  | EmptyString => EmptyString
  | String c r => if is_white c then trimStart r else s
  end.

Fixpoint trimEnd (s : string) : string :=
  match s with
  | EmptyString => EmptyString
  | String c r =>
      let r' := trimEnd r in
      if is_white c && is_empty r' then EmptyString else String c r'
  end.

(** [s.trim()] *)
Definition trim (s : string) : string := trimEnd (trimStart s).

(** [s.toLowerCase()] on code units below 256: A-Z and the Latin-1
    capitals (U+00C0-U+00DE except U+00D7) move up by 32. *)
Definition lower_char (c : ascii) : ascii :=
  let n := code c in
  if ((65 <=? n) && (n <=? 90))
     || ((192 <=? n) && (n <=? 222) && negb (n =? 215))
  then ascii_of_nat (Z.to_nat (n + 32)) else c.

Fixpoint toLowerCase (s : string) : string :=
  match s with
  | EmptyString => EmptyString
  | String c r => String (lower_char c) (toLowerCase r)
  end.

(** Prepend a character to the first piece of a split. *)
Definition cons_head (c : ascii) (l : list string) : list string :=
  match l with
  | [] => [String c EmptyString]
  | h :: t => String c h :: t
  end.

(** [s.split(sep)] for a one-character separator. *)
Fixpoint split_char (sep : ascii) (s : string) : list string :=
  match s with
  | EmptyString => [EmptyString]
  | String c r =>
      if Ascii.eqb c sep then EmptyString :: split_char sep r
      else cons_head c (split_char sep r)
  end.

(** [s.split(/\r?\n/)] *)
Fixpoint split_lines (s : string) : list string :=
  match s with
  | EmptyString => [EmptyString]
  | String c r =>
      if Ascii.eqb c LF then EmptyString :: split_lines r
      else
        match r with
        | String d r' =>
            if Ascii.eqb c CR && Ascii.eqb d LF
            then EmptyString :: split_lines r'
            else cons_head c (split_lines r)
        | EmptyString => [String c EmptyString]
        end
  end.

(** [xs.indexOf(x)]: first position holding [x], or -1. *)
Fixpoint indexOf (xs : list string) (x : string) : Z :=
  match xs with
  | [] => -1
  | y :: r =>
      if String.eqb y x then 0
      else let k := indexOf r x in if k <? 0 then -1 else k + 1
  end.

(** [xs.join(sep)] on strings. *)
Fixpoint join (sep : string) (xs : list string) : string :=
  match xs with
  | [] => EmptyString
  | [x] => x
  | x :: r => (x ++ sep ++ join sep r)%string
  end.

(** [replaceAll] of [esc]: every quote character becomes two. *)
Fixpoint double_quotes (s : string) : string :=
  match s with
  | EmptyString => EmptyString
  | String c r =>
      if Ascii.eqb c dquote
      then String dquote (String dquote (double_quotes r))
      else String c (double_quotes r)
  end.

(** [replaceAll] of [get]: every pair of adjacent quote characters,
    taken from the left without overlap, becomes one. *)
Fixpoint undouble_quotes (s : string) : string :=
  match s with
  | EmptyString => EmptyString
  | String a r =>
      match r with
      | String b r' =>
          if Ascii.eqb a dquote && Ascii.eqb b dquote
          then String dquote (undouble_quotes r')
          else String a (undouble_quotes r)
      | EmptyString => s
      end
  end.

Definition strip_leading_quote (s : string) : string :=
  match s with
  | String c r => if Ascii.eqb c dquote then r else s
  | EmptyString => s
  end.

Fixpoint strip_trailing_quote (s : string) : string :=
  match s with
  | EmptyString => EmptyString
  | String c r =>
      if Ascii.eqb c dquote && is_empty r then EmptyString
      else String c (strip_trailing_quote r)
  end.

(** [replace] of [get], whose global pattern is a quote at the start or a
    quote at the end: drops one quote at the start and one at the end. *)
Definition strip_outer_quotes (s : string) : string :=
  strip_trailing_quote (strip_leading_quote s).

(** The [number] values the model distinguishes: integers (in the range
    where [String] and [Number] are exact) and [NaN]. *)
Inductive number : Type :=
| Int (z : Z)
| NaN.

(** [a === b] on numbers: [NaN] equals nothing. *)
Definition strict_eq (a b : number) : bool :=
  match a, b with
  | Int x, Int y => x =? y
  | _, _ => false
  end.

(** Truthiness of a number: 0 and [NaN] are falsy. *)
Definition truthy (a : number) : bool :=
  match a with
  | Int z => negb (z =? 0)
  | NaN => false
  end.

(** [String(n)] *)
Definition String_ (n : number) : string :=
  match n with
  | Int z => NilEmpty.string_of_int (Z.to_int z)
  | NaN => "NaN"%string
  end.

Definition digits (s : string) : number :=
  match s with
  | EmptyString => NaN
  | String _ _ =>
      match NilEmpty.uint_of_string s with
      | Some d => Int (Z.of_uint d)
      | None => NaN
      end
  end.

Definition neg (n : number) : number :=
  match n with
  | Int z => Int (- z)
  | NaN => NaN
  end.

(** [Number(s)] on the texts the model reads: surrounding white space is
    dropped, the empty text is 0, an optionally signed run of decimal
    digits is that integer.  Every other text is read as [NaN]; texts with
    a fraction, an exponent, a radix prefix or [Infinity], which JavaScript
    reads as other numbers, are outside the integer ids of the model. *)
Definition Number_ (s : string) : number :=
  match trim s with
  | EmptyString => Int 0
  | String c r as t =>
      if Ascii.eqb c "-"%char then neg (digits r)
      else if Ascii.eqb c "+"%char then digits r
      else digits t
  end.

End JS.

Import JS.

(* ====================================================================== *)
(** ** Records *)

(** [type User = { id: number; name: string; email: string }] *)
Record User : Type := mkUser {
  id : number;
  name : string;
  email : string
}.

(* ====================================================================== *)
(** ** CSV helpers *)

(** [esc] of [toCSV]: wrap in quotes, doubling the quotes inside. *)
Definition esc (v : string) : string :=
  String dquote (double_quotes v ++ String dquote EmptyString)%string.

Definition csv_header : string := "id,name,email"%string.

Definition csv_row (r : User) : string :=
  join ","%string [String_ (id r); esc (name r); esc (email r)].

Definition toCSV (rows : list User) : string :=
  join (String LF EmptyString) (csv_header :: map csv_row rows).

(** The inner loop of [parseCSV]: split one line into cells.  A quote
    flips [inQ] and is not copied; a comma outside quotes ends the cell. *)
Fixpoint scan_cells (line : string) (cur : string) (inQ : bool)
  : list string :=
  match line with
  | EmptyString => [cur]
  | String ch r =>
      if Ascii.eqb ch dquote then scan_cells r cur (negb inQ)
      else if Ascii.eqb ch comma && negb inQ
           then cur :: scan_cells r EmptyString inQ
           else scan_cells r (cur ++ String ch EmptyString)%string inQ
  end.

Definition cells_of (line : string) : list string :=
  scan_cells line EmptyString false.

(** [get] of [parseCSV]; [None] is [undefined]. *)
Definition get (cells : list string) (i : Z) : option string :=
  if 0 <=? i then
    match nth_error cells (Z.to_nat i) with
    | Some c => Some (undouble_quotes (strip_outer_quotes c))
    | None => None
    end
  else None.

(** [x || d] for an optional string: [undefined] and the empty string
    are falsy. *)
Definition or_else (x : option string) (d : string) : string :=
  match x with
  | Some s => if is_empty s then d else s
  | None => d
  end.

Record ColumnIndex : Type := mkIdx {
  idx_id : Z;
  idx_name : Z;
  idx_email : Z
}.

Definition header_of (line : string) : list string :=
  map (fun h => toLowerCase (trim h)) (split_char comma line).

Definition index_header (header : list string) : ColumnIndex :=
  mkIdx (indexOf header "id"%string)
        (indexOf header "name"%string)
        (indexOf header "email"%string).

Definition parse_line (idx : ColumnIndex) (line : string) : User :=
  let cells := cells_of line in
  mkUser
    (match get cells (idx_id idx) with
     | Some s => if is_empty s then Int 0 else Number_ s
     | None => Int 0
     end)
    (or_else (get cells (idx_name idx)) EmptyString)
    (or_else (get cells (idx_email idx)) EmptyString).

Definition parseCSV (csv : string) : list User :=
  match split_lines (trim csv) with
  | [] => []
  | first :: lines =>
      let idx := index_header (header_of first) in
      map (parse_line idx) lines
  end.

(** [onImportCSV] keeps the parsed rows with a name and an email. *)
Definition import_rows (text : string) : list User :=
  filter (fun r => negb (is_empty (name r)) && negb (is_empty (email r)))
         (parseCSV text).

(* ====================================================================== *)
(** ** Derived data: filter, sort, paginate *)

Inductive SortKey : Type := by_id | by_name | by_email.
Inductive SortDir : Type := asc | desc.

Record ViewState : Type := mkView {
  query : string;
  sortBy : SortKey;
  sortDir : SortDir;
  page : Z;
  pageSize : Z
}.

Fixpoint startsWith (s p : string) : bool :=
  match p, s with
  | EmptyString, _ => true
  | String _ _, EmptyString => false
  | String b p', String a s' => Ascii.eqb a b && startsWith s' p'
  end.

(** [s.includes(sub)] *)
Fixpoint includes (s sub : string) : bool :=
  startsWith s sub ||
  match s with
  | EmptyString => false
  | String _ r => includes r sub
  end.

(** [xs.slice(start, end)]: a negative bound counts from the end. *)
Definition slice {A : Type} (xs : list A) (start stop : Z) : list A :=
  let len := Z.of_nat (List.length xs) in
  let k := if start <? 0 then Z.max (len + start) 0 else Z.min start len in
  let fin := if stop <? 0 then Z.max (len + stop) 0 else Z.min stop len in
  firstn (Z.to_nat (fin - k)) (skipn (Z.to_nat k) xs).

(** [Math.ceil(a / b)] for integers [a] and [b > 0] (the page sizes the
    page offers are 5, 8, 10, 20 and 50). *)
Definition ceil_div (a b : Z) : Z := - ((- a) / b).

Section Projection.

(** [collator.compare] of [Intl.Collator(undefined, {sensitivity: base,
    numeric: true})] depends on the locale of the browser. *)
Variable collator_compare : string -> string -> Z.

(** The comparator handed to [sort]. For ids it is [Number(A) - Number(B)];
    a [NaN] result counts as 0 for [sort]. *)
Definition compare_users (vs : ViewState) (a b : User) : Z :=
  let cmp :=
    match sortBy vs with
    | by_name => collator_compare (name a) (name b)
    | by_email => collator_compare (email a) (email b)
    | by_id =>
        match id a, id b with
        | Int x, Int y => x - y
        | _, _ => 0
        end
    end in
  match sortDir vs with asc => cmp | desc => - cmp end.

(** [Array.prototype.sort] is stable; it is modelled as a stable
    insertion sort. *)
Fixpoint insert_sorted (cmp : User -> User -> Z) (x : User) (l : list User)
  : list User :=
  match l with
  | [] => [x]
  | y :: r => if cmp x y <=? 0 then x :: l else y :: insert_sorted cmp x r
  end.

Definition sort (cmp : User -> User -> Z) (l : list User) : list User :=
  fold_right (insert_sorted cmp) [] l.

Definition filtered (users : list User) (vs : ViewState) : list User :=
  let q := toLowerCase (trim (query vs)) in
  let list :=
    if is_empty q then users
    else filter (fun u => includes (toLowerCase (name u)) q
                          || includes (toLowerCase (email u)) q) users in
  sort (compare_users vs) list.

Definition total (users : list User) (vs : ViewState) : Z :=
  Z.of_nat (List.length (filtered users vs)).

Definition pages (users : list User) (vs : ViewState) : Z :=
  Z.max 1 (ceil_div (total users vs) (pageSize vs)).

Definition pageSafe (users : list User) (vs : ViewState) : Z :=
  Z.min (page vs) (pages users vs).

Definition pageRows (users : list User) (vs : ViewState) : list User :=
  let start := (pageSafe users vs - 1) * pageSize vs in
  let stop := start + pageSize vs in
  slice (filtered users vs) start stop.

(** The pager buttons and the page-size select. *)
Inductive PagerAction : Type :=
| FirstPage | PrevPage | NextPage | LastPage | SetPageSize (n : Z).

Definition set_page (p : Z) (vs : ViewState) : ViewState :=
  mkView (query vs) (sortBy vs) (sortDir vs) p (pageSize vs).

Definition pager (users : list User) (a : PagerAction) (vs : ViewState)
  : ViewState :=
  match a with
  | FirstPage => set_page 1 vs
  | PrevPage => set_page (Z.max 1 (page vs - 1)) vs
  | NextPage => set_page (Z.min (pages users vs) (page vs + 1)) vs
  | LastPage => set_page (pages users vs) vs
  | SetPageSize n => mkView (query vs) (sortBy vs) (sortDir vs) 1 n
  end.

End Projection.

(** [useState] initial values of the view. *)
Definition initial_view : ViewState := mkView EmptyString by_name asc 1 8.

(* ====================================================================== *)
(** ** Page state, toasts, network outcomes *)

Inductive ToastType : Type := Success | Error | Info.

(** The only toast action of the page is the Undo of [removeUser]; the
    closure holds [removed], the result of [users.find]. *)
Inductive Action : Type :=
| Undo (removed : option User).

Record Toast : Type := mkToast {
  toast_id : Z;
  toast_type : ToastType;
  msg : string;
  actionLabel : option string;
  action : option Action
}.

(** What [push] receives: a toast without its id. *)
Record ToastArgs : Type := mkArgs {
  arg_type : ToastType;
  arg_msg : string;
  arg_label : option string;
  arg_action : option Action
}.

Definition plain (t : ToastType) (m : string) : ToastArgs :=
  mkArgs t m None None.

(** The state of [Home] that the handlers read and write, with what they
    reach outside React: the module-level [cache] (one key, [API_URL]),
    the [users_cache] item of [localStorage] (held decoded: it is only
    written as [JSON.stringify] of a user array and read back with
    [JSON.parse]), the timers of [setTimeout] against a clock in
    milliseconds, and the toasts that have left [items] but are still on
    screen: the page renders the toasts inside [AnimatePresence] with an
    [exit] animation, which keeps the element of a removed toast, its
    button included, mounted until that animation has ended. *)
Record State : Type := mkState {
  users : list User;
  loading : bool;
  error : option string;
  selected : list number;
  confirmOpen : bool;
  items : list Toast;
  idRef : Z;
  now : Z;
  timers : list (Z * Z);
  cache : option (list User);
  localStorage : option (list User);
  leaving : list Toast
}.

Definition setUsers (v : list User) (s : State) : State :=
  mkState v (loading s) (error s) (selected s) (confirmOpen s) (items s)
          (idRef s) (now s) (timers s) (cache s) (localStorage s)
          (leaving s).

Definition setLoading (b : bool) (s : State) : State :=
  mkState (users s) b (error s) (selected s) (confirmOpen s) (items s)
          (idRef s) (now s) (timers s) (cache s) (localStorage s)
          (leaving s).

Definition setError (e : option string) (s : State) : State :=
  mkState (users s) (loading s) e (selected s) (confirmOpen s) (items s)
          (idRef s) (now s) (timers s) (cache s) (localStorage s)
          (leaving s).

Definition setSelected (l : list number) (s : State) : State :=
  mkState (users s) (loading s) (error s) l (confirmOpen s) (items s)
          (idRef s) (now s) (timers s) (cache s) (localStorage s)
          (leaving s).

Definition setConfirmOpen (b : bool) (s : State) : State :=
  mkState (users s) (loading s) (error s) (selected s) b (items s)
          (idRef s) (now s) (timers s) (cache s) (localStorage s)
          (leaving s).

Definition setItems (l : list Toast) (s : State) : State :=
  mkState (users s) (loading s) (error s) (selected s) (confirmOpen s) l
          (idRef s) (now s) (timers s) (cache s) (localStorage s)
          (leaving s).

Definition cache_set (d : list User) (s : State) : State :=
  mkState (users s) (loading s) (error s) (selected s) (confirmOpen s) (items s)
          (idRef s) (now s) (timers s) (Some d) (localStorage s)
          (leaving s).

Definition localStorage_setItem (d : list User) (s : State) : State :=
  mkState (users s) (loading s) (error s) (selected s) (confirmOpen s) (items s)
          (idRef s) (now s) (timers s) (cache s) (Some d) (leaving s).

(** First render: [useState] initial values, an empty module cache. *)
Definition initial_state (ls : option (list User)) : State :=
  mkState [] true None [] false [] 1 0 [] None ls [].

(** The delay of the [setTimeout] in [push]. *)
Definition toast_delay : Z := 4000.

(** [push] of [useToasts]: take the next id, append the toast, arm the
    timer that removes it. *)
Definition push (t : ToastArgs) (s : State) : State :=
  let i := idRef s in
  let item := mkToast i (arg_type t) (arg_msg t) (arg_label t) (arg_action t) in
  mkState (users s) (loading s) (error s) (selected s) (confirmOpen s)
          (items s ++ [item]) (i + 1) (now s)
          (timers s ++ [(now s + toast_delay, i)]) (cache s) (localStorage s)
          (leaving s).

Definition setLeaving (l : list Toast) (s : State) : State :=
  mkState (users s) (loading s) (error s) (selected s) (confirmOpen s)
          (items s) (idRef s) (now s) (timers s) (cache s) (localStorage s)
          l.

(** The timer callback: [setItems(v => v.filter(x => x.id !== id))]. A
    toast that it takes out of [items] starts its exit animation. *)
Definition expire (i : Z) (s : State) : State :=
  setLeaving (leaving s ++ filter (fun x => toast_id x =? i) (items s))
    (setItems (filter (fun x => negb (toast_id x =? i)) (items s)) s).

(** The exit animation of toast [i] has ended: [AnimatePresence] unmounts
    its element. How long the animation takes is the library's matter. *)
Definition exit_complete (i : Z) (s : State) : State :=
  setLeaving (filter (fun x => negb (toast_id x =? i)) (leaving s)) s.

Definition due (t : Z) (tm : Z * Z) : bool := fst tm <=? t.

(** Let [dt] milliseconds pass: every timer that has come due runs, in
    the order it was armed, and is gone. *)
Definition advance (dt : Z) (s : State) : State :=
  let t := now s + dt in
  let fired := filter (due t) (timers s) in
  let s' := fold_left (fun acc tm => expire (snd tm) acc) fired s in
  mkState (users s') (loading s') (error s') (selected s') (confirmOpen s')
          (items s') (idRef s') t
          (filter (fun tm => negb (due t tm)) (timers s))
          (cache s') (localStorage s') (leaving s').

(** Running a toast action. *)
Definition run_action (a : Action) (s : State) : State :=
  match a with
  | Undo (Some removed) => setUsers (removed :: users s) s
  | Undo None => s
  end.

(** The toasts whose element is on screen: those in [items], and those
    that have left [items] and play their exit animation. *)
Definition mounted (s : State) : list Toast := items s ++ leaving s.

(** Clicking the action button of toast [i]. The button is rendered for
    a toast that is on screen and has both an action and a label; [None]
    when there is no such button. *)
Definition click_action (i : Z) (s : State) : option State :=
  match find (fun x => toast_id x =? i) (mounted s) with
  | Some t =>
      match action t, actionLabel t with
      | Some a, Some _ => Some (run_action a s)
      | _, _ => None
      end
  | None => None
  end.

(** How an awaited [fetch] settles. The body is what [res.json()] gives:
    a value, or a rejection with its message. *)
Inductive Body (A : Type) : Type :=
| Json (a : A)
| BadJson (message : string).
Arguments Json {A} a.
Arguments BadJson {A} message.

Record Response (A : Type) : Type := mkResponse {
  status : Z;
  body : Body A
}.
Arguments mkResponse {A} status body.
Arguments status {A} r.
Arguments body {A} r.

Inductive Settled (A : Type) : Type :=
| Fulfilled (r : Response A)
| Rejected (message : string).
Arguments Fulfilled {A} r.
Arguments Rejected {A} message.

(** [res.ok] *)
Definition ok {A : Type} (r : Response A) : bool :=
  (200 <=? status r) && (status r <=? 299).

(** [e?.message || d] *)
Definition message_or (m d : string) : string :=
  if is_empty m then d else m.

Definition is_rejected {A : Type} (o : Settled A) : bool :=
  match o with Rejected _ => true | Fulfilled _ => false end.

(* ====================================================================== *)
(** ** Handlers *)

(** [xs.includes(x)] on numbers compares with SameValueZero, for which
    [NaN] is equal to itself. *)
Definition same_value_zero (a b : number) : bool :=
  match a, b with
  | Int x, Int y => x =? y
  | NaN, NaN => true
  | _, _ => false
  end.

Definition includes_num (xs : list number) (x : number) : bool :=
  existsb (same_value_zero x) xs.

(** [users.find(u => u.id === id)] *)
Definition find_user (i : number) (l : list User) : option User :=
  find (fun u => strict_eq (id u) i) l.

Record FormValues : Type := mkValues {
  v_name : string;
  v_email : string
}.

(** *** fetchUsers *)

(** Up to the [await fetch]. *)
Definition fetchUsers_begin (s : State) : State :=
  let s1 := setError None (setLoading true s) in
  match cache s1 with
  | Some d => setUsers d s1
  | None => s1
  end.

(** The [catch] and [finally] blocks, [m] being [e.message]. *)
Definition fetchUsers_catch (m : string) (s : State) : State :=
  let s1 :=
    match localStorage s with
    | Some data => push (plain Info "Loaded offline cache") (setUsers data s)
    | None => setError (Some (message_or m "Failed to load")) s
    end in
  setLoading false s1.

(** How [localStorage.setItem] goes: it stores the item, or it throws
    (the quota is used up). *)
Inductive Write : Type :=
| Written
| Throws (message : string).

(** From the settling of [fetch] to the end; [w] is how the write of the
    [users_cache] item goes when it is reached. The write is inside the
    [try]: when it throws, the [catch] block runs after [cache.set] and
    [setUsers]. *)
Definition fetchUsers_settle (o : Settled (list User)) (w : Write)
  (s : State) : State :=
  match o with
  | Rejected m => fetchUsers_catch m s
  | Fulfilled res =>
      if ok res then
        match body res with
        | Json data =>
            let s1 := setUsers data (cache_set data s) in
            match w with
            | Written => setLoading false (localStorage_setItem data s1)
            | Throws m => fetchUsers_catch m s1
            end
        | BadJson m => fetchUsers_catch m s
        end
      else fetchUsers_catch ("HTTP " ++ String_ (Int (status res))) s
  end.

(** *** createUser *)

Inductive Completion : Type :=
| Done (s : State)
| Thrown (message : string).

(** [createUser] does nothing before its [await]; a failure is thrown to
    the caller. *)
Definition createUser_settle (o : Settled User) (s : State) : Completion :=
  match o with
  | Rejected m => Thrown m
  | Fulfilled res =>
      if ok res then
        match body res with
        | Json created =>
            Done (push (plain Success "User created")
                       (setUsers (created :: users s) s))
        | BadJson m => Thrown m
        end
      else Thrown "Create failed"
  end.

(** *** updateUser *)

Definition apply_values (values : FormValues) (u : User) : User :=
  mkUser (id u) (v_name values) (v_email values).

(** Up to the [await fetch]: the optimistic write. The handler holds
    [prev = users], the list of the render it was called from, taken to
    be the current state. *)
Definition updateUser_begin (i : number) (values : FormValues) (s : State)
  : State :=
  setUsers (map (fun u => if strict_eq (id u) i then apply_values values u
                          else u) (users s)) s.

Definition updateUser_catch (prev : list User) (m : string) (s : State)
  : State :=
  push (plain Error (message_or m "Update failed")) (setUsers prev s).

(** From the settling of [fetch] to the end. A body that does not parse
    gives [data = null]. *)
Definition updateUser_settle (i : number) (prev : list User)
  (o : Settled User) (s : State) : State :=
  match o with
  | Rejected m => updateUser_catch prev m s
  | Fulfilled res =>
      if ok res then
        let s1 :=
          match body res with
          | Json data =>
              if truthy (id data)
              then setUsers (map (fun u => if strict_eq (id u) i then data
                                           else u) (users s)) s
              else s
          | BadJson _ => s
          end in
        push (plain Success "Changes saved") s1
      else updateUser_catch prev "Update failed" s
  end.

(** *** removeUser *)

Definition removeUser_begin (i : number) (s : State) : State :=
  let removed := find_user i (users s) in
  push (mkArgs Info "User deleted" (Some "Undo"%string) (Some (Undo removed)))
       (setUsers (filter (fun u => negb (strict_eq (id u) i)) (users s)) s).

Definition removeUser_catch (prev : list User) (m : string) (s : State)
  : State :=
  push (plain Error (message_or m "Delete failed")) (setUsers prev s).

Definition removeUser_settle (prev : list User) (o : Settled unit)
  (s : State) : State :=
  match o with
  | Rejected m => removeUser_catch prev m s
  | Fulfilled res =>
      if ok res then s else removeUser_catch prev "Delete failed" s
  end.

(** *** removeSelected *)

Definition removeSelected_begin (s : State) : State :=
  let ids := selected s in
  setSelected []
    (setUsers (filter (fun u => negb (includes_num ids (id u))) (users s))
              (setConfirmOpen false s)).

(** [Promise.all] rejects when one of the [fetch] promises rejects, and
    otherwise fulfils; the responses are not looked at. *)
Definition removeSelected_settle (ids : list number) (prev : list User)
  (os : list (Settled unit)) (s : State) : State :=
  if existsb is_rejected os
  then push (plain Error "Bulk delete failed") (setUsers prev s)
  else push (plain Success
               ("Deleted " ++ String_ (Int (Z.of_nat (List.length ids)))
                ++ " user(s)")) s.

(** *** WebSocket message of type users:update *)

Definition onmessage_update (payload : list User) (s : State) : State :=
  setUsers payload s.

(* ====================================================================== *)
(** ** The page as an event system

    Between two events the page is a [State] together with the handlers
    that are suspended at an [await]; each suspended handler holds what its
    closure captured. *)

Inductive Pending : Type :=
| PFetch
| PCreate
| PUpdate (i : number) (prev : list User)
| PRemove (prev : list User)
| PBulk (ids : list number) (prev : list User).

Inductive Outcome : Type :=
| OList (o : Settled (list User)) (w : Write)
| OUser (o : Settled User)
| OUnit (o : Settled unit)
| OUnits (os : list (Settled unit)).

Record Page : Type := mkPage {
  state : State;
  pending : list Pending
}.

Inductive Event : Type :=
| CallFetchUsers
| CallCreateUser
| CallUpdateUser (i : number) (values : FormValues)
| CallRemoveUser (i : number)
| CallRemoveSelected
| Settle (k : nat) (o : Outcome)
| Click (toast : Z)
| Advance (dt : Z)
| Message (payload : list User)
| Select (ids : list number)
| ExitDone (toast : Z).

Fixpoint remove_nth {A : Type} (k : nat) (l : list A) : list A :=
  match k, l with
  | _, [] => []
  | O, _ :: r => r
  | S k', x :: r => x :: remove_nth k' r
  end.

(** Resume the [k]-th suspended handler with the outcome of its call. *)
Definition settle (k : nat) (o : Outcome) (pg : Page) : option Page :=
  let s := state pg in
  let rest := remove_nth k (pending pg) in
  match nth_error (pending pg) k, o with
  | Some PFetch, OList o w => Some (mkPage (fetchUsers_settle o w s) rest)
  | Some PCreate, OUser o =>
      match createUser_settle o s with
      | Done s' => Some (mkPage s' rest)
      | Thrown _ => Some (mkPage s rest)
      end
  | Some (PUpdate i prev), OUser o =>
      Some (mkPage (updateUser_settle i prev o s) rest)
  | Some (PRemove prev), OUnit o =>
      Some (mkPage (removeUser_settle prev o s) rest)
  | Some (PBulk ids prev), OUnits os =>
      Some (mkPage (removeSelected_settle ids prev os s) rest)
  | _, _ => None
  end.

Definition exec (e : Event) (pg : Page) : option Page :=
  let s := state pg in
  let ps := pending pg in
  match e with
  | CallFetchUsers => Some (mkPage (fetchUsers_begin s) (ps ++ [PFetch]))
  | CallCreateUser => Some (mkPage s (ps ++ [PCreate]))
  | CallUpdateUser i values =>
      Some (mkPage (updateUser_begin i values s) (ps ++ [PUpdate i (users s)]))
  | CallRemoveUser i =>
      Some (mkPage (removeUser_begin i s) (ps ++ [PRemove (users s)]))
  | CallRemoveSelected =>
      Some (mkPage (removeSelected_begin s)
                   (ps ++ [PBulk (selected s) (users s)]))
  | Settle k o => settle k o pg
  | Click i =>
      match click_action i s with
      | Some s' => Some (mkPage s' ps)
      | None => None
      end
  | Advance dt =>
      if 0 <=? dt then Some (mkPage (advance dt s) ps) else None
  | Message payload => Some (mkPage (onmessage_update payload s) ps)
  | Select ids => Some (mkPage (setSelected ids s) ps)
  | ExitDone i => Some (mkPage (exit_complete i s) ps)
  end.

Fixpoint run (es : list Event) (pg : Page) : option Page :=
  match es with
  | [] => Some pg
  | e :: r =>
      match exec e pg with
      | Some pg' => run r pg'
      | None => None
      end
  end.

(* ====================================================================== *)
(** ** Notions the statements use *)

(** The lines [parseCSV] works on, and the column positions it reads off
    the first of them. *)
Definition csv_lines (csv : string) : list string := split_lines (trim csv).

Definition csv_index (csv : string) : ColumnIndex :=
  index_header (header_of (hd EmptyString (csv_lines csv))).

Fixpoint all_chars (p : ascii -> bool) (s : string) : bool :=
  match s with
  | EmptyString => true
  | String c r => p c && all_chars p r
  end.

Definition not_quote (c : ascii) : bool := negb (Ascii.eqb c dquote).
Definition not_LF (c : ascii) : bool := negb (Ascii.eqb c LF).
Definition not_comma (c : ascii) : bool := negb (Ascii.eqb c comma).
Definition not_white (c : ascii) : bool := negb (is_white c).

(** A field that [toCSV] and [parseCSV] carry unchanged: no quote and no
    line feed in it. *)
Definition plain_char (c : ascii) : bool := not_quote c && not_LF c.

Definition plain_field (s : string) : bool := all_chars plain_char s.

Definition is_digit (c : ascii) : bool :=
  (48 <=? code c) && (code c <=? 57).

(** The characters of a printed number: no quote, comma or white space. *)
Definition token_char (c : ascii) : bool :=
  not_quote c && not_comma c && not_white c.

(** A line that [split] gives back whole: no line feed in it and no
    carriage return at its end. *)
Fixpoint line_safe (s : string) : bool :=
  match s with
  | EmptyString => true
  | String c r =>
      not_LF c && (negb (Ascii.eqb c CR) || negb (is_empty r)) && line_safe r
  end.

(** The last character is there and is not white space. *)
Fixpoint ends_black (s : string) : bool :=
  match s with
  | EmptyString => false
  | String c r => if is_empty r then not_white c else ends_black r
  end.

Definition plain_user (u : User) : bool :=
  plain_field (name u) && plain_field (email u).

(** A user list in which no id occurs twice. *)
Definition unique_ids (l : list User) : Prop := NoDup (map id l).

(** The list call of [fetchUsers] failed: the [fetch] rejected, the
    response is not [ok], or its body does not parse. *)
Definition load_failed (o : Settled (list User)) : bool :=
  match o with
  | Rejected _ => true
  | Fulfilled res =>
      negb (ok res) || match body res with BadJson _ => true | Json _ => false end
  end.

(** The message of the error that [fetchUsers] catches. *)
Definition failure_message (o : Settled (list User)) : string :=
  match o with
  | Rejected m => m
  | Fulfilled res =>
      if ok res then
        match body res with BadJson m => m | Json _ => EmptyString end
      else ("HTTP " ++ String_ (Int (status res)))%string
  end.

(** A network call that failed for the handler: the [fetch] rejected, or
    the response is not [ok]. *)
Definition failed {A : Type} (o : Settled A) : bool :=
  match o with
  | Rejected _ => true
  | Fulfilled res => negb (ok res)
  end.

(** Toast ids and timer ids already handed out lie below [idRef]. *)
Definition fresh_ids (s : State) : Prop :=
  (forall tm, In tm (timers s) -> snd tm < idRef s)
  /\ (forall t, In t (mounted s) -> toast_id t < idRef s).

(** The list a suspended handler would put back. *)
Definition captured (p : Pending) : list User :=
  match p with
  | PUpdate _ prev => prev
  | PRemove prev => prev
  | PBulk _ prev => prev
  | PFetch | PCreate => []
  end.

Definition opt_unique (o : option (list User)) : Prop :=
  match o with
  | Some l => unique_ids l
  | None => True
  end.

(** Id uniqueness of the set, carried along with the lists that a
    rollback, the module cache or the offline snapshot can bring back. *)
Record Inv (pg : Page) : Prop := mkInv {
  inv_users : unique_ids (users (state pg));
  inv_pending : Forall (fun p => unique_ids (captured p)) (pending pg);
  inv_cache : opt_unique (cache (state pg));
  inv_storage : opt_unique (localStorage (state pg))
}.

(** The record that the action button of toast [i] would re-insert. *)
Definition undo_record (i : Z) (s : State) : option User :=
  match find (fun x => toast_id x =? i) (mounted s) with
  | Some t =>
      match action t, actionLabel t with
      | Some (Undo r), Some _ => r
      | _, _ => None
      end
  | None => None
  end.

(** What an event brings into the set does not collide with it: a list
    from the server or the socket has unique ids, a created record has an
    id the set does not hold, the answer to an update carries the id that
    was updated, and an undo re-inserts a record whose id is not in the
    set at that moment. *)
Definition benign (e : Event) (pg : Page) : Prop :=
  match e with
  | Settle k (OList (Fulfilled res) _) =>
      match body res with
      | Json data => unique_ids data
      | BadJson _ => True
      end
  | Settle k (OUser (Fulfilled res)) =>
      match body res, nth_error (pending pg) k with
      | Json data, Some PCreate =>
          ~ In (id data) (map id (users (state pg)))
      | Json data, Some (PUpdate i _) => id data = i
      | _, _ => True
      end
  | Click t =>
      match undo_record t (state pg) with
      | Some u => ~ In (id u) (map id (users (state pg)))
      | None => True
      end
  | Message payload => unique_ids payload
  | _ => True
  end.

Fixpoint benign_run (es : list Event) (pg : Page) : Prop :=
  match es with
  | [] => True
  | e :: r =>
      benign e pg
      /\ match exec e pg with
         | Some pg' => benign_run r pg'
         | None => True
         end
  end.

(** Running all the timers of a list, and whether one of them is the
    timer of a given toast. *)
Definition expire_all (fired : list (Z * Z)) (s : State) : State :=
  fold_left (fun acc tm => expire (snd tm) acc) fired s.

Definition hit (fired : list (Z * Z)) (x : Toast) : bool :=
  existsb (fun tm => toast_id x =? snd tm) fired.

(* ====================================================================== *)
(** ** Inputs the statements are run on *)

Definition quoted_name : string := ("A" ++ String dquote "B")%string.

Definition blank_line_csv : string :=
  ("id,name,email" ++ String LF (String LF "1,a,b"))%string.

(** A collator to run the projection with: code-unit order. *)
Definition sample_collator (a b : string) : Z :=
  match String.compare a b with
  | Lt => -1
  | Eq => 0
  | Gt => 1
  end.

Definition one_user : list User := [mkUser (Int 1) "Ann" "ann@x.com"].

Definition page_zero : ViewState := mkView EmptyString by_name asc 0 8.

Definition ann : User := mkUser (Int 1) "A" "a@x.com".
Definition bob : User := mkUser (Int 2) "B" "b@x.com".
Definition cat : User := mkUser (Int 3) "C" "c@x.com".
Definition eve : User := mkUser (Int 5) "Eve" "e@x.com".

(** The page after a load that gave the users [us]. *)
Definition ready (us : list User) : State :=
  setLoading false (setUsers us (initial_state None)).

Definition offline : Settled User := Rejected "Failed to fetch".

(** A POST answered with HTTP 500 and an error object. *)
Definition always_500 : Settled User :=
  Fulfilled (mkResponse 500 (BadJson "not a user")).

(** A delete answered with the given status code. *)
Definition http (code : Z) : Settled unit :=
  Fulfilled (mkResponse code (Json tt)).

(** Two updates in flight on ids 1 and 2; the one on id 1 fails. *)
Definition two_updates : list Event :=
  [ CallUpdateUser (Int 1) (mkValues "A2" "a@x.com");
    CallUpdateUser (Int 2) (mkValues "B2" "b@x.com") ].

Definition first_fails : Event := Settle 0 (OUser offline).

(** A delete whose network call fails, then its Undo is clicked. *)
Definition undo_after_rollback : list Event :=
  [ CallRemoveUser (Int 5);
    Settle 0 (OUnit (Rejected "Failed to fetch"));
    Click 1 ].

(** A first load that gives one user, then its delete. *)
Definition load_then_delete : list Event :=
  [ CallFetchUsers;
    Settle 0 (OList (Fulfilled (mkResponse 200 (Json [eve]))) Written);
    CallRemoveUser (Int 5) ].

(** A delete whose network call succeeds, then its Undo is clicked. *)
Definition undo_after_delete : list Event :=
  [ CallRemoveUser (Int 5); Settle 0 (OUnit (http 200)); Click 1 ].

(* ====================================================================== *)
(** ** Selection check boxes *)

(** [pageRows.length > 0 && pageRows.every(r => selected.includes(r.id))] *)
Definition allVisibleSelected (rows : list User) (sel : list number) : bool :=
  negb (Nat.eqb (List.length rows) 0)
  && forallb (fun r => includes_num sel (id r)) rows.

(** The check box of a row:
    [s.includes(u.id) ? s.filter(x => x !== u.id) : [...s, u.id]]. *)
Definition toggle_row (i : number) (s : list number) : list number :=
  if includes_num s i then filter (fun x => negb (strict_eq x i)) s
  else s ++ [i].

(** [Array.from(new Set(xs))]: the first occurrence of every value, in
    order; a [Set] compares with SameValueZero. *)
Fixpoint set_from (seen xs : list number) : list number :=
  match xs with
  | [] => []
  | x :: r =>
      if includes_num seen x then set_from seen r
      else x :: set_from (x :: seen) r
  end.

(** The check box in the table head: drop the rows of the page from the
    selection when all of them are selected, add them otherwise. *)
Definition toggle_page (rows : list User) (s : list number) : list number :=
  if allVisibleSelected rows s
  then filter (fun i => negb (existsb (fun r => strict_eq (id r) i) rows)) s
  else set_from [] (s ++ map id rows).

(* ====================================================================== *)
(** ** CSV import *)

(** The body of the POST for one row: name and email, not the id. *)
Definition import_body (r : User) : FormValues :=
  mkValues (name r) (email r).

(** The loop of [onImportCSV]: one POST per row, each awaited before the
    next; [o k] is how the [k]-th of them settles. A rejected [fetch]
    throws out of the handler; a response is not looked at. The result is
    the bodies posted and whether the loop ran to its end. *)
Fixpoint post_rows (rows : list User) (o : nat -> Settled User) (k : nat)
  : list FormValues * bool :=
  match rows with
  | [] => ([], true)
  | r :: rs =>
      match o k with
      | Rejected _ => ([import_body r], false)
      | Fulfilled _ =>
          let rest := post_rows rs o (S k) in
          (import_body r :: fst rest, snd rest)
      end
  end.

(** After the loop: [await fetchUsers()], here from the settling of its
    call on, then the toast. *)
Definition onImportCSV_finish (rows : list User) (o : Settled (list User))
  (w : Write) (s : State) : State :=
  push (plain Success
          ("Imported " ++ String_ (Int (Z.of_nat (List.length rows)))
           ++ " users"))
       (fetchUsers_settle o w s).

(* ====================================================================== *)
(** ** The REST service ([src/api/server.js])

    Each route runs one query and answers from its callback. The database
    is outside the program: what the callback receives is an input. *)

Module Server.

(** [parseInt(s)] with no radix: leading white space, a sign, [0x] for
    base 16, then the longest run of digits; [NaN] when there is none. *)
Definition digit_of (radix : Z) (c : ascii) : option Z :=
  let n := code c in
  let v := if (48 <=? n) && (n <=? 57) then n - 48
           else if (97 <=? n) && (n <=? 122) then n - 87
           else if (65 <=? n) && (n <=? 90) then n - 55
           else 36 in
  if v <? radix then Some v else None.

Fixpoint digits_prefix (radix : Z) (s : string) (acc : option Z)
  : option Z :=
  match s with
  | EmptyString => acc
  | String c r =>
      match digit_of radix c with
      | Some v =>
          digits_prefix radix r
            (Some (radix * match acc with Some a => a | None => 0 end + v))
      | None => acc
      end
  end.

Definition split_sign (t : string) : Z * string :=
  match t with
  | String c r =>
      if Ascii.eqb c "-"%char then (-1, r)
      else if Ascii.eqb c "+"%char then (1, r)
      else (1, t)
  | EmptyString => (1, t)
  end.

Definition split_radix (r : string) : Z * string :=
  match r with
  | String a (String b r') =>
      if Ascii.eqb a "0"%char
         && (Ascii.eqb b "x"%char || Ascii.eqb b "X"%char)
      then (16, r') else (10, r)
  | _ => (10, r)
  end.

Definition parseInt (s : string) : number :=
  let sr := split_sign (trimStart s) in
  let rr := split_radix (snd sr) in
  match digits_prefix (fst rr) (snd rr) None with
  | Some v => Int (fst sr * v)
  | None => NaN
  end.

(** What the callback of a SELECT receives. *)
Inductive SelectResult : Type :=
| SelectErr (message : string)
| SelectRows (results : list User).

(** What the callback of an INSERT, UPDATE or DELETE receives. *)
Inductive WriteResult : Type :=
| WriteErr (message : string)
| WriteOk (affectedRows insertId : Z).

(** The JSON a route sends. *)
Inductive Payload : Type :=
| Users (l : list User)
| OneUser (u : User)
| Message (message : string)
| ErrorOf (error : string).

Record Reply : Type := mkReply {
  code : Z;
  payload : Payload
}.

(** [GET /api/users] *)
Definition get_users (r : SelectResult) : Reply :=
  match r with
  | SelectErr m => mkReply 500 (ErrorOf m)
  | SelectRows results => mkReply 200 (Users results)
  end.

(** [GET /api/users/:id] *)
Definition get_user (r : SelectResult) : Reply :=
  match r with
  | SelectErr m => mkReply 500 (ErrorOf m)
  | SelectRows [] => mkReply 404 (Message "User not found")
  | SelectRows (u :: _) => mkReply 200 (OneUser u)
  end.

(** [POST /api/users] *)
Definition post_user (body : FormValues) (r : WriteResult) : Reply :=
  match r with
  | WriteErr m => mkReply 500 (ErrorOf m)
  | WriteOk _ insertId =>
      mkReply 201 (OneUser (mkUser (Int insertId) (v_name body) (v_email body)))
  end.

(** [PUT /api/users/:id]; [param] is the text of [:id]. *)
Definition put_user (param : string) (body : FormValues) (r : WriteResult)
  : Reply :=
  let id := parseInt param in
  match r with
  | WriteErr m => mkReply 500 (ErrorOf m)
  | WriteOk affectedRows _ =>
      if affectedRows =? 0 then mkReply 404 (Message "User not found")
      else mkReply 200 (OneUser (mkUser id (v_name body) (v_email body)))
  end.

(** [DELETE /api/users/:id] *)
Definition delete_user (r : WriteResult) : Reply :=
  match r with
  | WriteErr m => mkReply 500 (ErrorOf m)
  | WriteOk affectedRows _ =>
      if affectedRows =? 0 then mkReply 404 (Message "User not found")
      else mkReply 200 (Message "User deleted")
  end.

End Server.

(** How the page sees a reply. A handler that expects a user reads the
    body of an ok response only, and the routes send a user with every
    ok status they answer such a handler with; any other body is handed
    over as one that is no user. *)
Definition user_reply (r : Server.Reply) : Settled User :=
  Fulfilled (mkResponse (Server.code r)
               (match Server.payload r with
                | Server.OneUser u => Json u
                | _ => BadJson "not a user"
                end)).

Definition list_reply (r : Server.Reply) : Settled (list User) :=
  Fulfilled (mkResponse (Server.code r)
               (match Server.payload r with
                | Server.Users l => Json l
                | _ => BadJson "not a list"
                end)).

(** [removeUser] does not read the body. *)
Definition plain_reply (r : Server.Reply) : Settled unit :=
  Fulfilled (mkResponse (Server.code r) (Json tt)).

(** [Number.isSafeInteger]: ids that the template literal of the URL
    prints digit by digit, as [String_] does, and that [res.json] sends
    back as they are. (From 1e21 on JavaScript prints a number with an
    exponent, and JSON has no [NaN].) *)
Definition safe_id (i : number) : bool :=
  match i with
  | Int z => (- (2 ^ 53) <? z) && (z <? 2 ^ 53)
  | NaN => false
  end.

(** The text of the id in the URL the page calls, [API_URL/id], for the
    ids of the model; [None] for an id outside of it. *)
Definition id_param (i : number) : option string :=
  if safe_id i then Some (String_ i) else None.

(* ====================================================================== *)
(** ** More notions the statements use *)

(** The user is kept by the search of the page for the lower-cased,
    trimmed query [q]: [q] is a part of its lower-cased name or email. *)
Definition part_of (q s : string) : Prop :=
  exists pre post, s = (pre ++ q ++ post)%string.

Definition matches (q : string) (u : User) : Prop :=
  part_of q (toLowerCase (name u)) \/ part_of q (toLowerCase (email u)).

(** The test of the search for the lower-cased, trimmed query [q]. *)
Definition search_hit (q : string) (u : User) : bool :=
  includes (toLowerCase (name u)) q || includes (toLowerCase (email u)) q.

Definition sortkey_eqb (a b : SortKey) : bool :=
  match a, b with
  | by_id, by_id | by_name, by_name | by_email, by_email => true
  | _, _ => false
  end.

(** A click on a column head: flip the direction when the column is the
    sort key already, make it the sort key otherwise. *)
Definition click_column (col : SortKey) (vs : ViewState) : ViewState :=
  if sortkey_eqb (sortBy vs) col
  then mkView (query vs) (sortBy vs)
              (match sortDir vs with asc => desc | desc => asc end)
              (page vs) (pageSize vs)
  else mkView (query vs) col (sortDir vs) (page vs) (pageSize vs).

(** The order a comparator of [sort] stands for. *)
Definition le_by (cmp : User -> User -> Z) (a b : User) : Prop :=
  cmp a b <= 0.

(** The number an id sorts by. *)
Definition id_value (u : User) : Z :=
  match id u with
  | Int z => z
  | NaN => 0
  end.

Definition int_id (u : User) : Prop := exists z, id u = Int z.

(** The order of the ids that the direction asks for. *)
Definition id_order (d : SortDir) (a b : User) : Prop :=
  match d with
  | asc => id_value a <= id_value b
  | desc => id_value b <= id_value a
  end.

(** Every toast shown has its timer armed, due within the delay. *)
Definition all_armed (s : State) : Prop :=
  forall t, In t (items s) ->
    exists d, In (d, toast_id t) (timers s) /\ d <= now s + toast_delay.

(** What the module cache holds is also what the offline snapshot
    holds. *)
Definition cache_saved (s : State) : Prop :=
  match cache s with
  | Some d => localStorage s = Some d
  | None => True
  end.

(** No write of the offline snapshot throws in the event, or in any
    event of the list. *)
Definition write_succeeds (e : Event) : bool :=
  match e with
  | Settle _ (OList _ (Throws _)) => false
  | _ => true
  end.

Definition writes_succeed (es : list Event) : bool :=
  forallb write_succeeds es.

(** Toast ids are fresh and no two toasts shown share an id. *)
Definition tidy (s : State) : Prop :=
  fresh_ids s /\ NoDup (map toast_id (items s)).

(** A row that the import sends on: it has a name and an email. *)
Definition importable (r : User) : bool :=
  negb (is_empty (name r)) && negb (is_empty (email r)).

(* ====================================================================== *)
(** * CSV codec *)

Module Csv.

(** C1, at a name holding a quote: [toCSV] doubles the quote, the cell
    scanner of [parseCSV] drops every quote character before [get] can
    undo the doubling, and the name comes back without its quote. *)
Theorem roundtrip_loses_quote :
  parseCSV (toCSV [mkUser (Int 1) quoted_name "x@y.com"])
  = [mkUser (Int 1) "AB" "x@y.com"]
  /\ parseCSV (toCSV [mkUser (Int 1) quoted_name "x@y.com"])
     <> [mkUser (Int 1) quoted_name "x@y.com"].
Proof.
  split; [ reflexivity | vm_compute; discriminate ].
Qed.

Lemma indexOf_absent (xs : list string) (x : string) :
  ~ In x xs -> indexOf xs x = -1.
Proof.
  induction xs as [| y r IH]; simpl; intros Hn; [ reflexivity | ].
  destruct (String.eqb_spec y x) as [-> | _].
  - exfalso; apply Hn; now left.
  - rewrite IH by (intros H; apply Hn; now right). reflexivity.
Qed.

Lemma get_negative (cells : list string) (i : Z) :
  i < 0 -> get cells i = None.
Proof.
  intros Hi; unfold get.
  destruct (Z.leb_spec 0 i); [ lia | reflexivity ].
Qed.

Lemma parseCSV_lines (csv : string) :
  parseCSV csv = map (parse_line (csv_index csv)) (tl (csv_lines csv)).
Proof.
  unfold parseCSV, csv_index, csv_lines.
  destruct (split_lines (trim csv)) as [| first lines]; reflexivity.
Qed.

Lemma split_lines_nonempty (s : string) : split_lines s <> [].
Proof.
  destruct s as [| c r]; simpl; [ discriminate | ].
  destruct (Ascii.eqb c LF); [ discriminate | ].
  destruct r as [| d r']; [ discriminate | ].
  destruct (Ascii.eqb c CR && Ascii.eqb d LF); [ discriminate | ].
  unfold cons_head; destruct (split_lines (String d r')); discriminate.
Qed.

(** C9 (amended): a column that the header does not name gives the empty
    string for name and email and 0 for id; [parseCSV] is total, and every
    line after the header, a blank one included, gives exactly one output
    record, a blank line giving id 0 with empty name and email. *)
Theorem parseCSV_defaults_no_skip (csv : string) :
  (forall header line,
      (~ In "id"%string header ->
       id (parse_line (index_header header) line) = Int 0)
      /\ (~ In "name"%string header ->
          name (parse_line (index_header header) line) = EmptyString)
      /\ (~ In "email"%string header ->
          email (parse_line (index_header header) line) = EmptyString))
  /\ S (List.length (parseCSV csv)) = List.length (csv_lines csv)
  /\ (forall line, In line (tl (csv_lines csv)) ->
        In (parse_line (csv_index csv) line) (parseCSV csv))
  /\ (forall idx, parse_line idx EmptyString
                  = mkUser (Int 0) EmptyString EmptyString).
Proof.
  repeat split.
  - intros Hn; unfold parse_line, index_header; simpl.
    rewrite (indexOf_absent _ _ Hn), get_negative by lia. reflexivity.
  - intros Hn; unfold parse_line, index_header; simpl.
    rewrite (indexOf_absent _ _ Hn), get_negative by lia. reflexivity.
  - intros Hn; unfold parse_line, index_header; simpl.
    rewrite (indexOf_absent _ _ Hn), get_negative by lia. reflexivity.
  - rewrite parseCSV_lines, length_map. unfold csv_lines.
    pose proof (split_lines_nonempty (trim csv)) as Hne.
    destruct (split_lines (trim csv)); [ congruence | reflexivity ].
  - intros line Hin. rewrite parseCSV_lines. now apply in_map.
  - intros [i n e]. unfold parse_line, cells_of, get; simpl.
    destruct (0 <=? i); [ destruct (Z.to_nat i) as [| [| k]] | ];
    destruct (0 <=? n); try destruct (Z.to_nat n) as [| [| k']];
    destruct (0 <=? e); try destruct (Z.to_nat e) as [| [| k'']];
    reflexivity.
Qed.

(** C9 fails as stated: the blank second line is not skipped, it becomes
    a record of its own, so the output is not the one record of the only
    line that has data. *)
Lemma blank_line_not_skipped :
  parseCSV blank_line_csv
  = [mkUser (Int 0) EmptyString EmptyString; mkUser (Int 1) "a" "b"]
  /\ parseCSV blank_line_csv <> [mkUser (Int 1) "a" "b"].
Proof. split; [ reflexivity | vm_compute; discriminate ]. Qed.

Lemma parseCSV_defaults_no_skip_witness :
  id (parse_line (index_header ["name"%string]) "x"%string) = Int 0
  /\ In (parse_line (csv_index blank_line_csv) EmptyString)
        (parseCSV blank_line_csv).
Proof.
  pose proof (parseCSV_defaults_no_skip blank_line_csv) as [H [_ [Hin _]]].
  split.
  - apply (H ["name"%string] "x"%string).
    simpl; intros [Hc | []]; discriminate.
  - apply Hin. simpl. now left.
Defined.

(** The import drops what [parseCSV] kept: rows without a name or an
    email do not reach the server. *)
Lemma import_rows_skips_blank :
  import_rows blank_line_csv = [mkUser (Int 1) "a" "b"].
Proof. reflexivity. Qed.

End Csv.

(* ====================================================================== *)
(** * View projection *)

Module View.

Lemma ceil_div_bounds (a b : Z) :
  0 < b -> (ceil_div a b - 1) * b < a <= ceil_div a b * b.
Proof.
  intros Hb. unfold ceil_div.
  pose proof (Z.div_mod (- a) b ltac:(lia)) as Hdm.
  pose proof (Z.mod_pos_bound (- a) b Hb) as Hm.
  nia.
Qed.

Lemma ceil_div_unique (a b c : Z) :
  0 < b -> (c - 1) * b < a <= c * b -> c = ceil_div a b.
Proof.
  intros Hb Hc. pose proof (ceil_div_bounds a b Hb) as Hd. nia.
Qed.

Lemma slice_window {A : Type} (l : list A) (start size : Z) :
  0 <= start -> 0 < size ->
  slice l start (start + size)
  = firstn (Z.to_nat size) (skipn (Z.to_nat start) l).
Proof.
  intros Hs Hz. unfold slice.
  destruct (Z.ltb_spec start 0); [ lia | ].
  destruct (Z.ltb_spec (start + size) 0); [ lia | ].
  set (len := Z.of_nat (List.length l)).
  destruct (Z.le_gt_cases start len) as [Hle | Hgt].
  - rewrite (Z.min_l start len) by lia.
    assert (Hlen : List.length (skipn (Z.to_nat start) l)
                   = Z.to_nat (len - start)).
    { rewrite length_skipn. unfold len. lia. }
    destruct (Z.le_gt_cases (start + size) len) as [Hle2 | Hgt2].
    + rewrite Z.min_l by lia. f_equal. lia.
    + rewrite Z.min_r by lia.
      rewrite <- Hlen, firstn_all. symmetry. apply firstn_all2. lia.
  - rewrite !Z.min_r by lia. rewrite Z.sub_diag. simpl.
    rewrite skipn_all2 by (unfold len in Hgt; lia).
    now rewrite firstn_nil.
Qed.

Section Facts.

Variable cc : string -> string -> Z.

Lemma pages_positive (us : list User) (vs : ViewState) : 1 <= pages cc us vs.
Proof. unfold pages. lia. Qed.

(** C6 (amended): for a page size above 0 and a requested page of at
    least 1, the page count is the larger of 1 and the ceiling of the
    filtered count over the page size, the page shown is the requested
    one cut down to the page count and lies between 1 and the page count,
    the rows are the window of page-size length that starts at
    (page shown - 1) * page size in the filtered and sorted list, and
    there are at most page-size rows. *)
Theorem projection_window (us : list User) (vs : ViewState) :
  0 < pageSize vs ->
  1 <= page vs ->
  (exists c, (c - 1) * pageSize vs < total cc us vs <= c * pageSize vs
             /\ pages cc us vs = Z.max 1 c)
  /\ 1 <= pageSafe cc us vs <= pages cc us vs
  /\ pageSafe cc us vs = (if page vs <=? pages cc us vs then page vs
                          else pages cc us vs)
  /\ pageRows cc us vs
     = firstn (Z.to_nat (pageSize vs))
              (skipn (Z.to_nat ((pageSafe cc us vs - 1) * pageSize vs))
                     (filtered cc us vs))
  /\ Z.of_nat (List.length (pageRows cc us vs)) <= pageSize vs.
Proof.
  intros Hps Hp.
  pose proof (pages_positive us vs) as Hpos.
  assert (Hsafe : 1 <= pageSafe cc us vs <= pages cc us vs).
  { unfold pageSafe. lia. }
  assert (Hrows : pageRows cc us vs
     = firstn (Z.to_nat (pageSize vs))
              (skipn (Z.to_nat ((pageSafe cc us vs - 1) * pageSize vs))
                     (filtered cc us vs))).
  { unfold pageRows. apply slice_window; nia. }
  repeat split; try lia.
  - exists (ceil_div (total cc us vs) (pageSize vs)). split.
    + now apply ceil_div_bounds.
    + reflexivity.
  - unfold pageSafe.
    destruct (Z.leb_spec (page vs) (pages cc us vs)); lia.
  - exact Hrows.
  - rewrite Hrows.
    pose proof (firstn_le_length (Z.to_nat (pageSize vs))
                  (skipn (Z.to_nat ((pageSafe cc us vs - 1) * pageSize vs))
                         (filtered cc us vs))).
    lia.
Qed.

(** The pager never asks for a page below 1, whatever the list is. *)
Lemma pager_page_positive (us : list User) (a : PagerAction)
  (vs : ViewState) :
  1 <= page vs -> 1 <= page (pager cc us a vs).
Proof.
  intros Hp. pose proof (pages_positive us vs).
  destruct a; simpl; lia.
Qed.

End Facts.

(** C6 fails as stated: a requested page of 0 is not raised to 1; the
    page shown is 0 and the rows are not the first window. *)
Lemma page_zero_not_clamped :
  pageSafe sample_collator one_user page_zero = 0
  /\ ~ (1 <= pageSafe sample_collator one_user page_zero)
  /\ pageRows sample_collator one_user page_zero = []
  /\ filtered sample_collator one_user page_zero = one_user.
Proof.
  repeat split; try reflexivity. vm_compute. intros H; apply H; reflexivity.
Qed.

Lemma projection_window_witness :
  pageRows sample_collator one_user initial_view
  = firstn (Z.to_nat 8)
      (skipn (Z.to_nat
                ((pageSafe sample_collator one_user initial_view - 1) * 8))
             (filtered sample_collator one_user initial_view)).
Proof.
  apply (projection_window sample_collator one_user initial_view);
    simpl; lia.
Defined.

End View.

(* ====================================================================== *)
(** * Optimistic mutations and their rollback *)

Module Sync.

Lemma strict_eq_eq (a b : number) : strict_eq a b = true -> a = b.
Proof.
  destruct a, b; simpl; try discriminate.
  intros H; apply Z.eqb_eq in H; now subst.
Qed.

Lemma find_user_some (i : number) (l : list User) (u : User) :
  find_user i l = Some u -> In u l /\ strict_eq (id u) i = true.
Proof. apply find_some. Qed.

(** Looking a user up after a map that keeps every id. *)
Lemma find_user_map (f : User -> User) (i : number) (l : list User) :
  (forall u, id (f u) = id u) ->
  find_user i (map f l) = option_map f (find_user i l).
Proof.
  intros Hid. unfold find_user.
  induction l as [| x r IH]; simpl; [ reflexivity | ].
  rewrite Hid. destruct (strict_eq (id x) i); [ reflexivity | exact IH ].
Qed.

Lemma updateUser_rollback (i : number) (prev : list User)
  (o : Settled User) (s : State) :
  failed o = true -> users (updateUser_settle i prev o s) = prev.
Proof.
  destruct o as [res | m]; simpl; [ | reflexivity ].
  destruct (ok res); [ discriminate | reflexivity ].
Qed.

Lemma removeUser_rollback (prev : list User) (o : Settled unit)
  (s : State) :
  failed o = true -> users (removeUser_settle prev o s) = prev.
Proof.
  destruct o as [res | m]; simpl; [ | reflexivity ].
  destruct (ok res); [ discriminate | reflexivity ].
Qed.

(** C4: when the set holds a record under the id, [updateUser] writes the
    new name and email under that id before the network call settles; if
    the call then fails, whatever state the page is in by then, the record
    under that id is again the one from before the call. *)
Theorem updateUser_optimistic_then_reverts (s : State) (i : number)
  (values : FormValues) (u : User) :
  find_user i (users s) = Some u ->
  find_user i (users (updateUser_begin i values s))
  = Some (mkUser (id u) (v_name values) (v_email values))
  /\ forall (o : Settled User) (s' : State),
       failed o = true ->
       find_user i (users (updateUser_settle i (users s) o s')) = Some u.
Proof.
  intros Hfind. split.
  - unfold updateUser_begin; simpl.
    rewrite find_user_map.
    + rewrite Hfind; simpl.
      destruct (find_user_some _ _ _ Hfind) as [_ Heq]. now rewrite Heq.
    + intros x. destruct (strict_eq (id x) i); reflexivity.
  - intros o s' Hf. now rewrite updateUser_rollback.
Qed.

Lemma updateUser_optimistic_then_reverts_witness :
  find_user (Int 1)
    (users (updateUser_begin (Int 1) (mkValues "B" "a@x.com") (ready [ann])))
  = Some (mkUser (Int 1) "B" "a@x.com")
  /\ find_user (Int 1)
       (users (updateUser_settle (Int 1) (users (ready [ann])) offline
          (updateUser_begin (Int 1) (mkValues "B" "a@x.com") (ready [ann]))))
     = Some ann.
Proof.
  destruct (updateUser_optimistic_then_reverts (ready [ann]) (Int 1)
              (mkValues "B" "a@x.com") ann eq_refl) as [Hnow Hback].
  split; [ exact Hnow | apply Hback; reflexivity ].
Defined.

(** C2 (amended): a failed [updateUser] or [removeUser] puts back the
    whole list it captured when it was called, whatever the page holds
    when the failure arrives: its own id is back to the record from
    before the call, and so is every other id. *)
Theorem rollback_restores_captured_list (s s' : State) (i : number) :
  (forall o : Settled User,
      failed o = true ->
      users (updateUser_settle i (users s) o s') = users s)
  /\ (forall o : Settled unit,
        failed o = true ->
        users (removeUser_settle (users s) o s') = users s).
Proof.
  split; intros o Hf.
  - now apply updateUser_rollback.
  - now apply removeUser_rollback.
Qed.

Lemma rollback_restores_captured_list_witness :
  users (updateUser_settle (Int 1) (users (ready [ann; bob])) offline
           (ready [])) = [ann; bob]
  /\ users (removeUser_settle (users (ready [ann; bob])) (Rejected "down")
              (ready [])) = [ann; bob].
Proof.
  destruct (rollback_restores_captured_list (ready [ann; bob]) (ready [])
              (Int 1)) as [Hu Hr].
  split; [ apply Hu | apply Hr ]; reflexivity.
Defined.

(** C2 fails as stated: the rollback of the update on id 1 also takes
    back the update on id 2, which has not failed. *)
Lemma rollback_clobbers_other_mutation :
  exists pg pg',
    run two_updates (mkPage (ready [ann; bob]) []) = Some pg
    /\ exec first_fails pg = Some pg'
    /\ find_user (Int 2) (users (state pg))
       = Some (mkUser (Int 2) "B2" "b@x.com")
    /\ find_user (Int 2) (users (state pg')) = Some bob
    /\ find_user (Int 2) (users (state pg'))
       <> find_user (Int 2) (users (state pg)).
Proof.
  eexists; eexists.
  split; [ reflexivity | ].
  split; [ reflexivity | ].
  split; [ reflexivity | ].
  split; [ reflexivity | ].
  vm_compute; discriminate.
Qed.

(** *** Bulk delete *)

Lemma removeSelected_rollback (ids : list number) (prev : list User)
  (os : list (Settled unit)) (s : State) :
  existsb is_rejected os = true ->
  users (removeSelected_settle ids prev os s) = prev
  /\ items (removeSelected_settle ids prev os s)
     = items s ++ [mkToast (idRef s) Error "Bulk delete failed" None None].
Proof.
  intros H. unfold removeSelected_settle. rewrite H. split; reflexivity.
Qed.

(** When every [fetch] of the bulk delete fulfils, whatever the status
    codes, nothing is put back and the success toast is pushed. *)
Lemma removeSelected_no_rollback (ids : list number) (prev : list User)
  (os : list (Settled unit)) (s : State) :
  existsb is_rejected os = false ->
  users (removeSelected_settle ids prev os s) = users s
  /\ exists m, items (removeSelected_settle ids prev os s)
               = items s ++ [mkToast (idRef s) Success m None None].
Proof.
  intros H. unfold removeSelected_settle. rewrite H.
  split; [ reflexivity | eexists; reflexivity ].
Qed.

(** C3, at ids 1, 2, 3 with the delete of id 2 answered by HTTP 500:
    [removeSelected] does not look at the responses, so nothing is
    restored and the toast reports success. *)
Theorem bulk_delete_ignores_http_error :
  exists pg,
    run [CallRemoveSelected; Settle 0 (OUnits [http 200; http 500; http 200])]
        (mkPage (setSelected [Int 1; Int 2; Int 3] (ready [ann; bob; cat])) [])
    = Some pg
    /\ users (state pg) = []
    /\ items (state pg)
       = [mkToast 1 Success "Deleted 3 user(s)" None None]
    /\ failed (http 500) = true.
Proof.
  eexists. repeat split; reflexivity.
Qed.

(** The sibling [removeUser] does treat the same response as a failure. *)
Lemma removeUser_checks_http_error (prev : list User) (s : State) :
  users (removeUser_settle prev (http 500) s) = prev.
Proof. reflexivity. Qed.

(** C10: [removeSelected] empties the selection when it applies the
    optimistic removal, and its settling, failure included, leaves the
    selection as it is: after a failure that puts every removed record
    back, the selection is still empty. *)
Theorem removeSelected_clears_selection (s : State)
  (os : list (Settled unit)) :
  selected (removeSelected_begin s) = []
  /\ (forall ids prev s',
        selected (removeSelected_settle ids prev os s') = selected s')
  /\ selected (removeSelected_settle (selected s) (users s) os
                 (removeSelected_begin s)) = []
  /\ (existsb is_rejected os = true ->
      users (removeSelected_settle (selected s) (users s) os
               (removeSelected_begin s)) = users s).
Proof.
  assert (Hframe : forall ids prev s',
             selected (removeSelected_settle ids prev os s') = selected s').
  { intros ids prev s'. unfold removeSelected_settle.
    destruct (existsb is_rejected os); reflexivity. }
  repeat split.
  - exact Hframe.
  - now rewrite Hframe.
  - intros H. now apply removeSelected_rollback.
Qed.

Lemma removeSelected_clears_selection_witness :
  selected (removeSelected_settle [Int 1; Int 2] [ann; bob]
              [http 200; Rejected "down"]
              (removeSelected_begin
                 (setSelected [Int 1; Int 2] (ready [ann; bob])))) = []
  /\ users (removeSelected_settle [Int 1; Int 2] [ann; bob]
              [http 200; Rejected "down"]
              (removeSelected_begin
                 (setSelected [Int 1; Int 2] (ready [ann; bob]))))
     = [ann; bob].
Proof.
  destruct (removeSelected_clears_selection
              (setSelected [Int 1; Int 2] (ready [ann; bob]))
              [http 200; Rejected "down"]) as [_ [_ [Hsel Husers]]].
  split; [ exact Hsel | apply Husers; reflexivity ].
Defined.

(** *** Initial load *)

(** C8: when the list call of the first load fails, loading ends; with a
    saved snapshot the users are exactly the snapshot, there is no error
    and the one toast says the offline cache was loaded; without a
    snapshot the user list is empty and the error is the message of the
    failure. *)
Theorem initial_load_failure (o : Settled (list User)) (w : Write)
  (ls : option (list User)) :
  load_failed o = true ->
  let s := fetchUsers_settle o w (fetchUsers_begin (initial_state ls)) in
  loading s = false
  /\ match ls with
     | Some snapshot =>
         users s = snapshot
         /\ error s = None
         /\ items s = [mkToast 1 Info "Loaded offline cache" None None]
     | None =>
         users s = []
         /\ error s = Some (message_or (failure_message o) "Failed to load")
         /\ items s = []
     end.
Proof.
  intros Hf.
  destruct o as [res | m]; simpl in *.
  - destruct (ok res) eqn:Hok; simpl in *.
    + destruct (body res) eqn:Hb; [ discriminate | ].
      destruct ls; repeat split; reflexivity.
    + destruct ls; repeat split; reflexivity.
  - destruct ls; repeat split; reflexivity.
Qed.

Lemma initial_load_failure_witness :
  users (fetchUsers_settle (Rejected "Failed to fetch") Written
           (fetchUsers_begin (initial_state (Some [ann; bob; cat]))))
  = [ann; bob; cat]
  /\ error (fetchUsers_settle (Rejected "Failed to fetch") Written
              (fetchUsers_begin (initial_state None)))
     = Some "Failed to fetch"%string.
Proof.
  split.
  - apply (initial_load_failure (Rejected "Failed to fetch") Written
             (Some [ann; bob; cat]) eq_refl).
  - apply (initial_load_failure (Rejected "Failed to fetch") Written None
             eq_refl).
Defined.

End Sync.

(* ====================================================================== *)
(** * Toast timers and undo *)

Module Toasts.

Lemma expire_all_frame (fired : list (Z * Z)) (s : State) :
  users (expire_all fired s) = users s
  /\ cache (expire_all fired s) = cache s
  /\ localStorage (expire_all fired s) = localStorage s
  /\ idRef (expire_all fired s) = idRef s
  /\ selected (expire_all fired s) = selected s.
Proof.
  revert s. induction fired as [| tm r IH]; intros s; simpl.
  - repeat split.
  - destruct (IH (expire (snd tm) s)) as (H1 & H2 & H3 & H4 & H5).
    unfold expire_all in *. rewrite H1, H2, H3, H4, H5. repeat split.
Qed.

Lemma expire_all_items (fired : list (Z * Z)) (s : State) :
  items (expire_all fired s)
  = filter (fun x => negb (hit fired x)) (items s).
Proof.
  revert s. induction fired as [| tm r IH]; intros s.
  - simpl. induction (items s) as [| x l IHl]; simpl; [ reflexivity | ].
    now rewrite <- IHl.
  - change (expire_all (tm :: r) s) with (expire_all r (expire (snd tm) s)).
    rewrite IH. simpl.
    induction (items s) as [| x l IHl]; simpl; [ reflexivity | ].
    destruct (toast_id x =? snd tm); simpl.
    + exact IHl.
    + destruct (hit r x); simpl; [ exact IHl | now rewrite IHl ].
Qed.

Lemma advance_users (dt : Z) (s : State) : users (advance dt s) = users s.
Proof.
  unfold advance; simpl.
  apply (expire_all_frame (filter (due (now s + dt)) (timers s)) s).
Qed.

Lemma advance_items (dt : Z) (s : State) :
  items (advance dt s)
  = filter (fun x => negb (hit (filter (due (now s + dt)) (timers s)) x))
           (items s).
Proof. unfold advance; simpl. apply expire_all_items. Qed.

Lemma advance_timers (dt : Z) (s : State) :
  timers (advance dt s)
  = filter (fun tm => negb (due (now s + dt) tm)) (timers s).
Proof. reflexivity. Qed.

Lemma hit_false_fresh (fired : list (Z * Z)) (x : Toast) :
  (forall tm, In tm fired -> snd tm < toast_id x) -> hit fired x = false.
Proof.
  intros H. unfold hit.
  induction fired as [| tm r IH]; simpl; [ reflexivity | ].
  rewrite IH by (intros; apply H; now right).
  pose proof (H tm (or_introl eq_refl)).
  destruct (Z.eqb_spec (toast_id x) (snd tm)); [ lia | reflexivity ].
Qed.

Lemma find_toast_skip (i : Z) (l l' : list Toast) :
  (forall t, In t l -> toast_id t < i) ->
  find (fun x => toast_id x =? i) (l ++ l')
  = find (fun x => toast_id x =? i) l'.
Proof.
  intros H. induction l as [| x r IH]; simpl; [ reflexivity | ].
  pose proof (H x (or_introl eq_refl)).
  destruct (Z.eqb_spec (toast_id x) i); [ lia | ].
  apply IH. intros; apply H; now right.
Qed.

Lemma find_toast_none (i : Z) (l : list Toast) :
  (forall t, In t l -> toast_id t <> i) ->
  find (fun x => toast_id x =? i) l = None.
Proof.
  intros H. induction l as [| x r IH]; simpl; [ reflexivity | ].
  pose proof (H x (or_introl eq_refl)).
  destruct (Z.eqb_spec (toast_id x) i); [ contradiction | ].
  apply IH. intros; apply H; now right.
Qed.

(** *** Toast ids stay fresh *)

Lemma fresh_frame (s s' : State) :
  timers s' = timers s -> mounted s' = mounted s -> idRef s' = idRef s ->
  fresh_ids s -> fresh_ids s'.
Proof.
  intros Ht Hi Hr [H1 H2]. unfold fresh_ids. rewrite Ht, Hi, Hr. now split.
Qed.

Lemma fresh_push (t : ToastArgs) (s : State) :
  fresh_ids s -> fresh_ids (push t s).
Proof.
  intros [H1 H2]. split; simpl.
  - intros x Hin. apply in_app_or in Hin.
    destruct Hin as [Hin | [<- | []]]; simpl; [ | lia ].
    specialize (H1 x Hin). lia.
  - intros x Hin. unfold mounted in *. simpl in Hin.
    rewrite !in_app_iff in Hin. simpl in Hin.
    destruct Hin as [[Hin | [<- | []]] | Hin]; simpl; try lia.
    + assert (In x (items s ++ leaving s)) by (apply in_or_app; now left).
      specialize (H2 x H). lia.
    + assert (In x (items s ++ leaving s)) by (apply in_or_app; now right).
      specialize (H2 x H). lia.
Qed.

Lemma expire_all_leaving (fired : list (Z * Z)) (s : State) (t : Toast) :
  In t (leaving (expire_all fired s)) <->
  In t (leaving s) \/ (In t (items s) /\ hit fired t = true).
Proof.
  revert s. induction fired as [| tm r IH]; intros s.
  - simpl. split; [ tauto | intros [H | [_ H]]; [ exact H | discriminate ] ].
  - change (expire_all (tm :: r) s) with (expire_all r (expire (snd tm) s)).
    rewrite IH. simpl leaving. simpl items.
    rewrite in_app_iff, !filter_In.
    change (hit (tm :: r) t) with ((toast_id t =? snd tm) || hit r t).
    destruct (toast_id t =? snd tm); simpl; intuition congruence.
Qed.

Lemma advance_leaving (dt : Z) (s : State) (t : Toast) :
  In t (leaving (advance dt s)) <->
  In t (leaving s)
  \/ (In t (items s) /\ hit (filter (due (now s + dt)) (timers s)) t = true).
Proof. unfold advance; simpl. apply expire_all_leaving. Qed.

Lemma advance_mounted (dt : Z) (s : State) (t : Toast) :
  In t (mounted (advance dt s)) <-> In t (mounted s).
Proof.
  unfold mounted. rewrite !in_app_iff, advance_items, advance_leaving,
    filter_In.
  destruct (hit (filter (due (now s + dt)) (timers s)) t); simpl;
    intuition discriminate.
Qed.

Lemma fresh_advance (dt : Z) (s : State) :
  fresh_ids s -> fresh_ids (advance dt s).
Proof.
  intros [H1 H2].
  destruct (expire_all_frame (filter (due (now s + dt)) (timers s)) s)
    as (_ & _ & _ & Hid & _).
  split.
  - intros tm Hin. rewrite advance_timers in Hin.
    apply filter_In in Hin. destruct Hin as [Hin _].
    unfold advance; simpl. fold (expire_all (filter (due (now s + dt))
                                   (timers s)) s).
    rewrite Hid. now apply H1.
  - intros t Hin. apply advance_mounted in Hin.
    unfold advance; simpl. fold (expire_all (filter (due (now s + dt))
                                   (timers s)) s).
    rewrite Hid. now apply H2.
Qed.

Lemma fresh_exit (i : Z) (s : State) :
  fresh_ids s -> fresh_ids (exit_complete i s).
Proof.
  intros [H1 H2]. split; [ exact H1 | ].
  intros t Hin. unfold mounted in *. simpl in Hin.
  apply H2. rewrite in_app_iff in *. rewrite filter_In in Hin. tauto.
Qed.

Ltac fresh_step :=
  repeat first
    [ assumption
    | apply fresh_push
    | apply fresh_advance
    | apply fresh_exit
    | match goal with
      | |- fresh_ids (match ?x with _ => _ end) => destruct x
      | |- fresh_ids (if ?b then _ else _) => destruct b
      | |- fresh_ids (setUsers _ ?s) =>
          apply (fresh_frame s); [ reflexivity | reflexivity | reflexivity | ]
      | |- fresh_ids (setLoading _ ?s) =>
          apply (fresh_frame s); [ reflexivity | reflexivity | reflexivity | ]
      | |- fresh_ids (setError _ ?s) =>
          apply (fresh_frame s); [ reflexivity | reflexivity | reflexivity | ]
      | |- fresh_ids (setSelected _ ?s) =>
          apply (fresh_frame s); [ reflexivity | reflexivity | reflexivity | ]
      | |- fresh_ids (setConfirmOpen _ ?s) =>
          apply (fresh_frame s); [ reflexivity | reflexivity | reflexivity | ]
      | |- fresh_ids (cache_set _ ?s) =>
          apply (fresh_frame s); [ reflexivity | reflexivity | reflexivity | ]
      | |- fresh_ids (localStorage_setItem _ ?s) =>
          apply (fresh_frame s); [ reflexivity | reflexivity | reflexivity | ]
      end ].

(** Every event of the page keeps the toast ids below [idRef], so the
    toast of a new delete is the only one with its id. *)
Lemma exec_keeps_fresh (e : Event) (pg pg' : Page) :
  fresh_ids (state pg) -> exec e pg = Some pg' -> fresh_ids (state pg').
Proof.
  intros Hf Hex. destruct e; simpl in Hex.
  - inversion Hex; subst; simpl. unfold fetchUsers_begin. simpl. fresh_step.
  - inversion Hex; subst; simpl. fresh_step.
  - inversion Hex; subst; simpl. unfold updateUser_begin. fresh_step.
  - inversion Hex; subst; simpl. unfold removeUser_begin. fresh_step.
  - inversion Hex; subst; simpl. unfold removeSelected_begin. fresh_step.
  - unfold settle in Hex.
    destruct (nth_error (pending pg) k) as [[| | i prev | prev | ids prev] |];
      try discriminate;
      destruct o as [o w | o | o | os]; try discriminate.
    + inversion Hex; subst; simpl.
      unfold fetchUsers_settle, fetchUsers_catch. fresh_step.
    + unfold createUser_settle in Hex.
      destruct o as [res | m]; [ | inversion Hex; subst; assumption ].
      destruct (ok res); [ | inversion Hex; subst; assumption ].
      destruct (body res); inversion Hex; subst; simpl; fresh_step.
    + inversion Hex; subst; simpl.
      unfold updateUser_settle, updateUser_catch. fresh_step.
    + inversion Hex; subst; simpl.
      unfold removeUser_settle, removeUser_catch. fresh_step.
    + inversion Hex; subst; simpl.
      unfold removeSelected_settle. fresh_step.
  - destruct (click_action toast (state pg)) as [s' |] eqn:Hc;
      [ | discriminate ].
    inversion Hex; subst; simpl.
    unfold click_action in Hc.
    destruct (find (fun x => toast_id x =? toast) (mounted (state pg)));
      [ | discriminate ].
    destruct (action t) as [[[u |]] |]; destruct (actionLabel t);
      try discriminate; inversion Hc; subst; simpl; fresh_step.
  - destruct (0 <=? dt); [ | discriminate ].
    inversion Hex; subst; simpl. fresh_step.
  - inversion Hex; subst; simpl. unfold onmessage_update. fresh_step.
  - inversion Hex; subst; simpl. fresh_step.
  - inversion Hex; subst; simpl. fresh_step.
Qed.

Lemma fresh_initial (ls : option (list User)) : fresh_ids (initial_state ls).
Proof. split; intros x []. Qed.

Lemma filter_app_due (t : Z) (l : list (Z * Z)) (tm : Z * Z) :
  filter (due t) (l ++ [tm])
  = filter (due t) l ++ (if due t tm then [tm] else []).
Proof. rewrite filter_app. reflexivity. Qed.

Lemma hit_app (a b : list (Z * Z)) (x : Toast) :
  hit (a ++ b) x = hit a x || hit b x.
Proof. unfold hit. apply existsb_app. Qed.

Lemma find_the_toast (i : Z) (l : list Toast) (T : Toast) :
  In T l -> toast_id T = i ->
  (forall x, In x l -> toast_id x = i -> x = T) ->
  find (fun x => toast_id x =? i) l = Some T.
Proof.
  intros Hin Hid Huniq.
  destruct (find (fun x => toast_id x =? i) l) as [x |] eqn:Hf.
  - apply find_some in Hf. destruct Hf as [Hx He].
    apply Z.eqb_eq in He. f_equal. now apply Huniq.
  - pose proof (find_none _ _ Hf T Hin) as Hn. simpl in Hn.
    rewrite Hid, Z.eqb_refl in Hn. discriminate.
Qed.

(** C7 (amended): after [removeUser] of a record that is in the set, the
    record is out of the set. Clicking the Undo of its toast puts the
    record back at the front of the set, before the 4000 ms timer has run
    and also after it, for as long as the exit animation keeps the toast
    on screen; the action is not used up: a second click puts the record
    in once more. Before 4000 ms the toast is in the toast list and its
    timer is armed; from 4000 ms on the toast is out of the toast list and
    the timer is no longer armed, so it does not run a second time. Once
    the exit animation has ended there is no button: a click is not
    possible and the set is not changed. *)
Theorem undo_window (s : State) (i : number) (u : User) (dt : Z) :
  fresh_ids s ->
  find_user i (users s) = Some u ->
  0 <= dt ->
  let tok := idRef s in
  let s1 := advance dt (removeUser_begin i s) in
  users s1 = filter (fun x => negb (strict_eq (id x) i)) (users s)
  /\ click_action tok s1 = Some (setUsers (u :: users s1) s1)
  /\ click_action tok (setUsers (u :: users s1) s1)
     = Some (setUsers (u :: u :: users s1) s1)
  /\ (dt < toast_delay ->
      In tok (map toast_id (items s1)) /\ In tok (map snd (timers s1)))
  /\ (toast_delay <= dt ->
      ~ In tok (map toast_id (items s1))
      /\ ~ In tok (map snd (timers s1))
      /\ click_action tok (exit_complete tok s1) = None
      /\ users (exit_complete tok s1) = users s1).
Proof.
  intros [Htm Hit] Hfind Hdt tok s1.
  set (T := mkToast tok Info "User deleted" (Some "Undo"%string)
                    (Some (Undo (Some u)))).
  set (s0 := removeUser_begin i s).
  assert (Hitems0 : items s0 = items s ++ [T]).
  { unfold s0, removeUser_begin, T; simpl. now rewrite Hfind. }
  assert (Hleaving0 : leaving s0 = leaving s) by reflexivity.
  assert (Htimers0 : timers s0 = timers s ++ [(now s + toast_delay, tok)])
    by reflexivity.
  assert (Hnow0 : now s0 = now s) by reflexivity.
  assert (Hfresh : forall tm, In tm (filter (due (now s + dt)) (timers s)) ->
                              snd tm < tok).
  { intros tm Hin. apply filter_In in Hin. now apply Htm. }
  assert (Htimers : timers s1
     = filter (fun tm => negb (due (now s + dt) tm))
              (timers s ++ [(now s + toast_delay, tok)])).
  { unfold s1. fold s0. now rewrite advance_timers, Htimers0, Hnow0. }
  assert (Hmounted0 : forall x, In x (mounted s0) ->
                                x = T \/ toast_id x < tok).
  { intros x Hx. unfold mounted in Hx. rewrite Hitems0, Hleaving0 in Hx.
    rewrite !in_app_iff in Hx. simpl in Hx.
    destruct Hx as [[Hx | [<- | []]] | Hx]; [ right | now left | right ];
      apply Hit; unfold mounted; apply in_or_app; tauto. }
  assert (HT0 : In T (mounted s0)).
  { unfold mounted. rewrite Hitems0, !in_app_iff. simpl. tauto. }
  assert (Hfound : find (fun x => toast_id x =? tok) (mounted s1) = Some T).
  { apply find_the_toast.
    - unfold s1. fold s0. now apply advance_mounted.
    - reflexivity.
    - intros x Hx Hid. unfold s1 in Hx. fold s0 in Hx.
      apply advance_mounted in Hx.
      destruct (Hmounted0 x Hx) as [-> | Hlt]; [ reflexivity | lia ]. }
  assert (Hitems : forall x, In x (items s1) <->
             In x (items s ++ [T])
             /\ hit (filter (due (now s + dt))
                      (timers s ++ [(now s + toast_delay, tok)])) x = false).
  { intros x. unfold s1. fold s0.
    rewrite advance_items, filter_In, Hitems0, Htimers0, Hnow0.
    now rewrite negb_true_iff. }
  split; [ unfold s1; now rewrite advance_users | ].
  split; [ unfold click_action; rewrite Hfound; reflexivity | ].
  split.
  { unfold click_action.
    change (mounted (setUsers (u :: users s1) s1)) with (mounted s1).
    rewrite Hfound. reflexivity. }
  split.
  - intros Hlt.
    assert (Hdue : due (now s + dt) (now s + toast_delay, tok) = false).
    { unfold due; simpl. apply Z.leb_gt. lia. }
    split.
    + apply in_map_iff. exists T. split; [ reflexivity | ].
      apply Hitems. split; [ apply in_or_app; right; now left | ].
      rewrite filter_app_due, Hdue, app_nil_r.
      now apply hit_false_fresh.
    + rewrite Htimers, filter_app, map_app. apply in_or_app. right.
      simpl. rewrite Hdue. simpl. now left.
  - intros Hge.
    assert (Hdue : due (now s + dt) (now s + toast_delay, tok) = true).
    { unfold due; simpl. apply Z.leb_le. lia. }
    assert (Hgone : forall x, In x (items s1) -> toast_id x <> tok).
    { intros x Hx Heq. apply Hitems in Hx. destruct Hx as [_ Hnh].
      rewrite filter_app_due, Hdue, hit_app in Hnh.
      unfold hit at 2 in Hnh. simpl in Hnh.
      rewrite Heq, Z.eqb_refl, orb_true_r in Hnh. discriminate. }
    split; [ | split; [ | split ] ].
    + intros Hin. apply in_map_iff in Hin. destruct Hin as [x [Hid Hx]].
      now apply (Hgone x).
    + rewrite Htimers, filter_app, map_app. intros Hin.
      apply in_app_or in Hin. destruct Hin as [Hin | Hin].
      * apply in_map_iff in Hin. destruct Hin as [tm [Hs Hin]].
        apply filter_In in Hin. destruct Hin as [Hin _].
        apply Htm in Hin. fold tok in Hin. lia.
      * simpl in Hin. rewrite Hdue in Hin. simpl in Hin. exact Hin.
    + unfold click_action. rewrite find_toast_none; [ reflexivity | ].
      intros x Hx Heq. unfold mounted in Hx. simpl in Hx.
      apply in_app_or in Hx. destruct Hx as [Hx | Hx].
      * now apply (Hgone x).
      * apply filter_In in Hx. destruct Hx as [_ Hx].
        rewrite Heq, Z.eqb_refl in Hx. discriminate.
    + reflexivity.
Qed.

Lemma undo_window_witness :
  click_action 1 (advance 3999 (removeUser_begin (Int 5) (ready [eve])))
  = Some (setUsers [eve] (advance 3999 (removeUser_begin (Int 5) (ready [eve]))))
  /\ In 1 (map toast_id
             (items (advance 3999 (removeUser_begin (Int 5) (ready [eve])))))
  /\ click_action 1 (advance 4000 (removeUser_begin (Int 5) (ready [eve])))
     = Some (setUsers [eve] (advance 4000 (removeUser_begin (Int 5) (ready [eve]))))
  /\ click_action 1
       (exit_complete 1
          (advance 4000 (removeUser_begin (Int 5) (ready [eve]))))
     = None.
Proof.
  assert (Hfresh : fresh_ids (ready [eve])).
  { split; intros x H; destruct H. }
  destruct (undo_window (ready [eve]) (Int 5) eve 3999 Hfresh eq_refl
              ltac:(lia)) as [_ [Hclick [_ [Hin _]]]].
  destruct (undo_window (ready [eve]) (Int 5) eve 4000 Hfresh eq_refl
              ltac:(lia)) as [_ [Hclick' [_ [_ Hout]]]].
  split; [ exact Hclick | ].
  split; [ apply Hin; reflexivity | ].
  split; [ exact Hclick' | ].
  apply Hout. unfold toast_delay. lia.
Defined.

(** After the timer has taken the toast out of the toast list, and while
    its exit animation runs, the Undo still puts the record back. *)
Lemma undo_after_timer :
  exists pg pg',
    run [CallRemoveUser (Int 5); Advance 4000]
        (mkPage (ready [eve]) []) = Some pg
    /\ items (state pg) = []
    /\ exec (Click 1) pg = Some pg'
    /\ users (state pg) = []
    /\ users (state pg') = [eve].
Proof.
  eexists; eexists. repeat split; reflexivity.
Qed.

(** C7 fails as stated: within the window the Undo of one delete runs
    twice, and the second run changes the set again. *)
Lemma undo_runs_twice :
  exists pg1 pg2,
    run [CallRemoveUser (Int 5); Advance 1000; Click 1]
        (mkPage (ready [eve]) []) = Some pg1
    /\ exec (Click 1) pg1 = Some pg2
    /\ users (state pg1) = [eve]
    /\ users (state pg2) = [eve; eve]
    /\ users (state pg2) <> users (state pg1).
Proof.
  eexists; eexists.
  split; [ reflexivity | ].
  split; [ reflexivity | ].
  split; [ reflexivity | ].
  split; [ reflexivity | ].
  vm_compute; discriminate.
Qed.

End Toasts.

(* ====================================================================== *)
(** * Id uniqueness *)

Module Uniqueness.

Lemma unique_ids_nil : unique_ids [].
Proof. constructor. Qed.

Lemma unique_ids_filter (f : User -> bool) (l : list User) :
  unique_ids l -> unique_ids (filter f l).
Proof.
  unfold unique_ids. induction l as [| x r IH]; simpl; intros H.
  - constructor.
  - inversion H as [| ? ? Hnotin Hr]; subst.
    destruct (f x); simpl; [ constructor | ]; auto.
    intros Hin. apply Hnotin.
    apply in_map_iff in Hin. destruct Hin as [y [Hy Hin]].
    apply filter_In in Hin. apply in_map_iff. exists y. tauto.
Qed.

Lemma ids_map_keep (f : User -> User) (l : list User) :
  (forall u, id (f u) = id u) -> map id (map f l) = map id l.
Proof.
  intros H. rewrite map_map. apply map_ext. exact H.
Qed.

Lemma unique_ids_cons (u : User) (l : list User) :
  ~ In (id u) (map id l) -> unique_ids l -> unique_ids (u :: l).
Proof. intros Hn Hl. unfold unique_ids; simpl. now constructor. Qed.

Lemma Forall_remove_nth {A : Type} (P : A -> Prop) (k : nat) (l : list A) :
  Forall P l -> Forall P (remove_nth k l).
Proof.
  revert k. induction l as [| x r IH]; intros k H.
  - destruct k; constructor.
  - inversion H; subst. destruct k; simpl; [ assumption | ].
    constructor; auto.
Qed.

Lemma Forall_nth_error {A : Type} (P : A -> Prop) (k : nat) (l : list A)
  (x : A) :
  Forall P l -> nth_error l k = Some x -> P x.
Proof.
  intros H Hn. apply nth_error_In in Hn.
  rewrite Forall_forall in H. now apply H.
Qed.

Lemma Forall_snoc {A : Type} (P : A -> Prop) (l : list A) (x : A) :
  Forall P l -> P x -> Forall P (l ++ [x]).
Proof.
  intros Hl Hx. apply Forall_app. split; [ assumption | ].
  now constructor.
Qed.

Lemma undo_record_click (i : Z) (s s' : State) :
  click_action i s = Some s' ->
  (exists u, undo_record i s = Some u /\ s' = setUsers (u :: users s) s)
  \/ s' = s.
Proof.
  unfold click_action, undo_record.
  destruct (find (fun x => toast_id x =? i) (mounted s)) as [t |];
    [ | discriminate ].
  destruct (action t) as [[[u |]] |]; destruct (actionLabel t);
    try discriminate; simpl; intros H; inversion H; subst.
  - left. exists u. split; reflexivity.
  - now right.
Qed.

Lemma fetchUsers_catch_inv (m : string) (pg : Page) (rest : list Pending) :
  Inv pg ->
  Forall (fun p => unique_ids (captured p)) rest ->
  Inv (mkPage (fetchUsers_catch m (state pg)) rest).
Proof.
  intros [Hu Hp Hc Hs] Hrest. unfold fetchUsers_catch.
  destruct (localStorage (state pg)) as [d |] eqn:Hls; simpl in Hs.
  - constructor; simpl; try assumption. now rewrite Hls.
  - constructor; simpl; try assumption. now rewrite Hls.
Qed.

(** Every event that brings nothing colliding into the set keeps the ids
    of the set unique, together with the lists that can come back. *)
Lemma exec_keeps_inv (e : Event) (pg pg' : Page) :
  Inv pg -> benign e pg -> exec e pg = Some pg' -> Inv pg'.
Proof.
  intros HI Hb Hex. pose proof HI as [Hu Hp Hc Hs].
  destruct e; simpl in Hex.
  - (* fetchUsers called *)
    inversion Hex; subst; clear Hex.
    unfold fetchUsers_begin; simpl.
    destruct (cache (state pg)) as [d |] eqn:Hcache; simpl in Hc;
      constructor; simpl; try rewrite Hcache; try assumption;
      apply Forall_snoc; auto using unique_ids_nil.
  - (* createUser called *)
    inversion Hex; subst; clear Hex.
    constructor; simpl; try assumption.
    apply Forall_snoc; auto using unique_ids_nil.
  - (* updateUser called *)
    inversion Hex; subst; clear Hex.
    constructor; simpl; try assumption.
    + unfold unique_ids. rewrite ids_map_keep; [ exact Hu | ].
      intros u. destruct (strict_eq (id u) i); reflexivity.
    + apply Forall_snoc; auto.
  - (* removeUser called *)
    inversion Hex; subst; clear Hex.
    constructor; simpl; try assumption.
    + now apply unique_ids_filter.
    + apply Forall_snoc; auto.
  - (* removeSelected called *)
    inversion Hex; subst; clear Hex.
    constructor; simpl; try assumption.
    + now apply unique_ids_filter.
    + apply Forall_snoc; auto.
  - (* a suspended handler resumes *)
    unfold settle in Hex.
    pose proof (Forall_remove_nth _ k _ Hp) as Hrest.
    destruct (nth_error (pending pg) k) as [p |] eqn:Hk; [ | discriminate ].
    pose proof (Forall_nth_error _ _ _ _ Hp Hk) as Hcap.
    destruct p as [| | i prev | prev | ids prev];
      destruct o as [o w | o | o | os]; try discriminate; simpl in Hcap.
    + (* fetchUsers *)
      inversion Hex; subst; clear Hex.
      destruct o as [res | m]; simpl in *;
        [ | now apply fetchUsers_catch_inv ].
      destruct (ok res); [ | now apply fetchUsers_catch_inv ].
      destruct (body res) as [data | m];
        [ | now apply fetchUsers_catch_inv ].
      destruct w as [| m].
      * constructor; simpl; assumption.
      * apply (fetchUsers_catch_inv m
                 (mkPage (setUsers data (cache_set data (state pg)))
                         (pending pg)));
          [ constructor; simpl; assumption | assumption ].
    + (* createUser *)
      simpl in Hb. rewrite Hk in Hb.
      destruct o as [res | m]; simpl in *;
        [ | inversion Hex; subst; constructor; assumption ].
      destruct (ok res); simpl in Hex;
        [ | inversion Hex; subst; constructor; assumption ].
      destruct (body res) as [data | m]; inversion Hex; subst; clear Hex;
        constructor; simpl; try assumption.
      now apply unique_ids_cons.
    + (* updateUser *)
      inversion Hex; subst; clear Hex.
      simpl in Hb. rewrite Hk in Hb.
      destruct o as [res | m]; simpl in *;
        [ | constructor; simpl; assumption ].
      destruct (ok res); [ | constructor; simpl; assumption ].
      destruct (body res) as [data | m]; [ | constructor; simpl; assumption ].
      destruct (truthy (id data)); constructor; simpl; try assumption.
      unfold unique_ids. rewrite ids_map_keep; [ exact Hu | ].
      intros u. destruct (strict_eq (id u) i) eqn:He; [ | reflexivity ].
      apply Sync.strict_eq_eq in He. congruence.
    + (* removeUser *)
      inversion Hex; subst; clear Hex.
      destruct o as [res | m]; simpl in *;
        [ | constructor; simpl; assumption ].
      destruct (ok res); constructor; simpl; assumption.
    + (* removeSelected *)
      inversion Hex; subst; clear Hex.
      unfold removeSelected_settle.
      destruct (existsb is_rejected os); constructor; simpl; assumption.
  - (* a toast action is clicked *)
    destruct (click_action toast (state pg)) as [s' |] eqn:Hclick;
      [ | discriminate ].
    inversion Hex; subst; clear Hex.
    apply undo_record_click in Hclick.
    destruct Hclick as [[u [Hrec ->]] | ->].
    + simpl in Hb. rewrite Hrec in Hb.
      constructor; simpl; try assumption.
      now apply unique_ids_cons.
    + constructor; simpl; assumption.
  - (* time passes *)
    destruct (0 <=? dt); [ | discriminate ].
    inversion Hex; subst; clear Hex.
    destruct (Toasts.expire_all_frame
                (filter (due (now (state pg) + dt)) (timers (state pg)))
                (state pg)) as (H1 & H2 & H3 & _).
    unfold expire_all in *.
    constructor; unfold advance; simpl;
      try rewrite H1; try rewrite H2; try rewrite H3; assumption.
  - (* socket message *)
    inversion Hex; subst; clear Hex.
    constructor; simpl; assumption.
  - (* selection *)
    inversion Hex; subst; clear Hex.
    constructor; simpl; assumption.
  - (* an exit animation ends *)
    inversion Hex; subst; clear Hex.
    constructor; simpl; assumption.
Qed.

(** C5 (amended): starting from a set with unique ids, every sequence
    of operations (create, update, delete, bulk delete, undo, rollback,
    external update, load) in which nothing colliding is brought in
    leaves the ids of the set unique; for undo this asks that the id of
    the record it puts back is not in the set when the undo runs. *)
Theorem run_keeps_ids_unique (es : list Event) (pg pg' : Page) :
  Inv pg -> benign_run es pg -> run es pg = Some pg' ->
  unique_ids (users (state pg')).
Proof.
  revert pg. induction es as [| e r IH]; intros pg HI Hb Hrun; simpl in *.
  - inversion Hrun; subst. apply HI.
  - destruct Hb as [Hb Hrest].
    destruct (exec e pg) as [pg1 |] eqn:Hex; [ | discriminate ].
    apply (IH pg1); auto.
    now apply (exec_keeps_inv e pg pg1).
Qed.

Lemma ready_inv (us : list User) :
  unique_ids us -> Inv (mkPage (ready us) []).
Proof. intros H. constructor; simpl; auto. Qed.

Lemma unique_ids_eve : unique_ids [eve].
Proof.
  unfold unique_ids; simpl. constructor; [ intros [] | constructor ].
Qed.

Lemma run_keeps_ids_unique_witness :
  exists pg,
    run undo_after_delete (mkPage (ready [eve]) []) = Some pg
    /\ users (state pg) = [eve]
    /\ unique_ids (users (state pg)).
Proof.
  eexists. split; [ reflexivity | ]. split; [ reflexivity | ].
  apply (run_keeps_ids_unique undo_after_delete (mkPage (ready [eve]) [])).
  - apply ready_inv, unique_ids_eve.
  - simpl. repeat split. intros [].
  - reflexivity.
Defined.

(** C5 fails as stated: a delete that fails is rolled back, its Undo is
    still there, and clicking it puts the record in a second time. *)
Lemma undo_after_rollback_duplicates :
  exists pg,
    Inv (mkPage (ready [eve]) [])
    /\ run undo_after_rollback (mkPage (ready [eve]) []) = Some pg
    /\ users (state pg) = [eve; eve]
    /\ ~ unique_ids (users (state pg)).
Proof.
  eexists.
  split; [ apply ready_inv, unique_ids_eve | ].
  split; [ reflexivity | ].
  split; [ reflexivity | ].
  unfold unique_ids; simpl. intros H.
  inversion H as [| ? ? Hnotin _]; subst. apply Hnotin. now left.
Qed.

End Uniqueness.

(* ====================================================================== *)
(** * CSV round trip on fields without quotes *)

Module RoundTrip.

Lemma append_assoc (a b c : string) :
  ((a ++ b) ++ c = a ++ (b ++ c))%string.
Proof. induction a as [| x a IH]; simpl; [ reflexivity | now rewrite IH ]. Qed.

Lemma append_nil_r (a : string) : (a ++ EmptyString)%string = a.
Proof. induction a as [| x a IH]; simpl; [ reflexivity | now rewrite IH ]. Qed.

Lemma all_chars_app (p : ascii -> bool) (a b : string) :
  all_chars p (a ++ b) = all_chars p a && all_chars p b.
Proof.
  induction a as [| x a IH]; simpl; [ reflexivity | ].
  now rewrite IH, andb_assoc.
Qed.

Lemma all_chars_weaken (p q : ascii -> bool) (s : string) :
  (forall c, p c = true -> q c = true) ->
  all_chars p s = true -> all_chars q s = true.
Proof.
  intros Hpq. induction s as [| x s IH]; simpl; [ reflexivity | ].
  intros H. apply andb_true_iff in H. destruct H as [Hx Hs].
  now rewrite (Hpq _ Hx), IH.
Qed.

(** *** Quotes *)

Lemma double_quotes_plain (s : string) :
  all_chars not_quote s = true -> double_quotes s = s.
Proof.
  induction s as [| x s IH]; simpl; [ reflexivity | ].
  intros H. apply andb_true_iff in H. destruct H as [Hx Hs].
  unfold not_quote in Hx. apply negb_true_iff in Hx. rewrite Hx.
  now rewrite IH.
Qed.

Lemma undouble_quotes_plain (s : string) :
  all_chars not_quote s = true -> undouble_quotes s = s.
Proof.
  induction s as [| x s IH]; [ reflexivity | ].
  intros H. simpl in H. apply andb_true_iff in H. destruct H as [Hx Hs].
  unfold not_quote in Hx. apply negb_true_iff in Hx.
  specialize (IH Hs).
  destruct s as [| y s']; [ reflexivity | ].
  change (undouble_quotes (String x (String y s')))
    with (if Ascii.eqb x dquote && Ascii.eqb y dquote
          then String dquote (undouble_quotes s')
          else String x (undouble_quotes (String y s'))).
  now rewrite Hx, IH.
Qed.

Lemma strip_trailing_quote_plain (s : string) :
  all_chars not_quote s = true -> strip_trailing_quote s = s.
Proof.
  induction s as [| x s IH]; simpl; [ reflexivity | ].
  intros H. apply andb_true_iff in H. destruct H as [Hx Hs].
  unfold not_quote in Hx. apply negb_true_iff in Hx. rewrite Hx. simpl.
  now rewrite IH.
Qed.

Lemma strip_outer_quotes_plain (s : string) :
  all_chars not_quote s = true -> strip_outer_quotes s = s.
Proof.
  intros H. unfold strip_outer_quotes.
  assert (Hl : strip_leading_quote s = s).
  { destruct s as [| x s]; [ reflexivity | ]. simpl in *.
    apply andb_true_iff in H. destruct H as [Hx _].
    unfold not_quote in Hx. apply negb_true_iff in Hx. now rewrite Hx. }
  rewrite Hl. now apply strip_trailing_quote_plain.
Qed.

(** *** The cell scanner *)

Lemma scan_inside (a rest cur : string) :
  all_chars not_quote a = true ->
  scan_cells (a ++ rest) cur true = scan_cells rest (cur ++ a) true.
Proof.
  revert cur. induction a as [| x a IH]; intros cur H; simpl.
  - now rewrite append_nil_r.
  - simpl in H. apply andb_true_iff in H. destruct H as [Hx Ha].
    unfold not_quote in Hx. apply negb_true_iff in Hx. rewrite Hx.
    rewrite andb_false_r. rewrite IH by exact Ha.
    now rewrite append_assoc.
Qed.

Lemma scan_outside (a rest cur : string) :
  all_chars token_char a = true ->
  scan_cells (a ++ rest) cur false = scan_cells rest (cur ++ a) false.
Proof.
  revert cur. induction a as [| x a IH]; intros cur H; simpl.
  - now rewrite append_nil_r.
  - simpl in H. apply andb_true_iff in H. destruct H as [Hx Ha].
    unfold token_char in Hx.
    apply andb_true_iff in Hx. destruct Hx as [Hx _].
    apply andb_true_iff in Hx. destruct Hx as [Hq Hc].
    unfold not_quote in Hq. apply negb_true_iff in Hq.
    unfold not_comma in Hc. apply negb_true_iff in Hc.
    rewrite Hq, Hc. simpl. rewrite IH by exact Ha.
    now rewrite append_assoc.
Qed.

(** A quoted field, read from outside quotes, adds its text to the cell
    and leaves the scanner outside quotes. *)
Lemma scan_esc (v rest cur : string) :
  all_chars not_quote v = true ->
  scan_cells (esc v ++ rest) cur false = scan_cells rest (cur ++ v) false.
Proof.
  intros H. unfold esc. rewrite double_quotes_plain by exact H.
  simpl. rewrite append_assoc, scan_inside by exact H.
  reflexivity.
Qed.

(** *** Printing and reading ids *)

Lemma digit_token (c : ascii) : is_digit c = true -> token_char c = true.
Proof.
  unfold is_digit, token_char, not_quote, not_comma, not_white, is_white.
  intros H. apply andb_true_iff in H. destruct H as [H1 H2].
  apply Z.leb_le in H1. apply Z.leb_le in H2.
  assert (Hq : Ascii.eqb c dquote = false).
  { apply Ascii.eqb_neq. intros ->. now apply H1. }
  assert (Hc : Ascii.eqb c comma = false).
  { apply Ascii.eqb_neq. intros ->. now apply H1. }
  rewrite Hq, Hc. simpl.
  destruct (Z.leb_spec 9 (code c)); destruct (Z.leb_spec (code c) 13);
    destruct (Z.eqb_spec (code c) 32); destruct (Z.eqb_spec (code c) 160);
    simpl; try reflexivity; lia.
Qed.

Lemma string_of_uint_digits (d : Decimal.uint) :
  all_chars is_digit (NilEmpty.string_of_uint d) = true.
Proof. induction d; simpl; auto. Qed.

Lemma string_of_uint_empty (d : Decimal.uint) :
  NilEmpty.string_of_uint d = EmptyString -> d = Decimal.Nil.
Proof. destruct d; simpl; intros H; try discriminate; reflexivity. Qed.

Lemma String_token (n : number) : all_chars token_char (String_ n) = true.
Proof.
  destruct n as [z |]; [ | reflexivity ].
  unfold String_.
  destruct z as [| p | p]; simpl; try reflexivity;
    apply (all_chars_weaken is_digit); auto using digit_token,
      string_of_uint_digits.
Qed.

Lemma trimEnd_black (s : string) :
  all_chars not_white s = true -> trimEnd s = s.
Proof.
  induction s as [| x s IH]; simpl; [ reflexivity | ].
  intros H. apply andb_true_iff in H. destruct H as [Hx Hs].
  unfold not_white in Hx. apply negb_true_iff in Hx. rewrite Hx. simpl.
  now rewrite IH.
Qed.

Lemma trim_black (s : string) :
  all_chars not_white s = true -> trim s = s.
Proof.
  intros H. unfold trim.
  assert (Hs : trimStart s = s).
  { destruct s as [| x s]; [ reflexivity | ]. simpl in *.
    apply andb_true_iff in H. destruct H as [Hx _].
    unfold not_white in Hx. apply negb_true_iff in Hx. now rewrite Hx. }
  rewrite Hs. now apply trimEnd_black.
Qed.

Lemma digits_of_uint (p : positive) :
  digits (NilEmpty.string_of_uint (Pos.to_uint p)) = Int (Z.pos p).
Proof.
  unfold digits.
  destruct (NilEmpty.string_of_uint (Pos.to_uint p)) as [| c r] eqn:Hs.
  - apply string_of_uint_empty in Hs.
    now apply DecimalPos.Unsigned.to_uint_nonnil in Hs.
  - rewrite <- Hs, NilEmpty.usu. unfold Z.of_uint.
    now rewrite DecimalPos.Unsigned.of_to.
Qed.

Lemma first_digit (p : positive) :
  exists c r, NilEmpty.string_of_uint (Pos.to_uint p) = String c r
              /\ is_digit c = true.
Proof.
  pose proof (string_of_uint_digits (Pos.to_uint p)) as Hd.
  destruct (NilEmpty.string_of_uint (Pos.to_uint p)) as [| c r] eqn:Hs.
  - apply string_of_uint_empty in Hs.
    now apply DecimalPos.Unsigned.to_uint_nonnil in Hs.
  - simpl in Hd. apply andb_true_iff in Hd. destruct Hd as [Hc _].
    now exists c, r.
Qed.

(** Reading a printed id gives the id back. *)
Lemma Number_String (n : number) : Number_ (String_ n) = n.
Proof.
  unfold Number_. rewrite trim_black.
  2:{ apply (all_chars_weaken token_char); [ | apply String_token ].
      intros c H. unfold token_char in H.
      apply andb_true_iff in H. tauto. }
  destruct n as [[| p | p] |]; try reflexivity.
  - (* positive *)
    pose proof (digits_of_uint p) as Hd.
    destruct (first_digit p) as [c [r [Hs Hc]]].
    change (String_ (Int (Z.pos p)))
      with (NilEmpty.string_of_uint (Pos.to_uint p)).
    rewrite Hs in *.
    assert (Hm : Ascii.eqb c "-"%char = false).
    { apply Ascii.eqb_neq. intros ->. discriminate. }
    assert (Hp : Ascii.eqb c "+"%char = false).
    { apply Ascii.eqb_neq. intros ->. discriminate. }
    now rewrite Hm, Hp.
  - (* negative *)
    change (String_ (Int (Z.neg p)))
      with (String "-"%char (NilEmpty.string_of_uint (Pos.to_uint p))).
    cbv beta iota. rewrite Ascii.eqb_refl, digits_of_uint. reflexivity.
Qed.

(** *** One row *)

Lemma plain_not_quote (s : string) :
  plain_field s = true -> all_chars not_quote s = true.
Proof.
  apply all_chars_weaken. intros c H. unfold plain_char in H.
  apply andb_true_iff in H. tauto.
Qed.

Lemma plain_not_LF (s : string) :
  plain_field s = true -> all_chars not_LF s = true.
Proof.
  apply all_chars_weaken. intros c H. unfold plain_char in H.
  apply andb_true_iff in H. tauto.
Qed.

Lemma csv_row_eq (r : User) :
  csv_row r
  = (String_ (id r) ++ String comma (esc (name r)
       ++ String comma (esc (email r))))%string.
Proof. reflexivity. Qed.

Lemma scan_comma (rest cur : string) :
  scan_cells (String comma rest) cur false
  = cur :: scan_cells rest EmptyString false.
Proof. reflexivity. Qed.

Lemma cells_of_row (r : User) :
  plain_user r = true ->
  cells_of (csv_row r) = [String_ (id r); name r; email r].
Proof.
  intros H. apply andb_true_iff in H. destruct H as [Hn He].
  apply plain_not_quote in Hn. apply plain_not_quote in He.
  unfold cells_of. rewrite csv_row_eq.
  rewrite scan_outside by apply String_token.
  rewrite scan_comma, scan_esc by exact Hn.
  rewrite scan_comma, <- (append_nil_r (esc (email r))).
  rewrite scan_esc by exact He.
  reflexivity.
Qed.

Lemma parse_line_row (r : User) :
  plain_user r = true ->
  parse_line (mkIdx 0 1 2) (csv_row r) = r.
Proof.
  intros H. unfold parse_line. rewrite cells_of_row by exact H.
  apply andb_true_iff in H. destruct H as [Hn He].
  apply plain_not_quote in Hn. apply plain_not_quote in He.
  unfold get; simpl.
  rewrite !strip_outer_quotes_plain, !undouble_quotes_plain;
    try assumption;
    try (apply (all_chars_weaken token_char); [ | apply String_token ];
         intros c Hc; unfold token_char in Hc;
         apply andb_true_iff in Hc; destruct Hc as [Hc _];
         apply andb_true_iff in Hc; tauto).
  destruct r as [i n e]; simpl in *. f_equal.
  - pose proof (Number_String i) as HN.
    destruct (String_ i); exact HN.
  - destruct n; reflexivity.
  - destruct e; reflexivity.
Qed.

(** *** Lines *)

Lemma ends_black_nonempty (s : string) :
  ends_black s = true -> is_empty s = false.
Proof. destruct s; simpl; [ discriminate | reflexivity ]. Qed.

Lemma ends_black_app (a b : string) :
  is_empty b = false -> ends_black (a ++ b) = ends_black b.
Proof.
  intros Hb. induction a as [| x a IH]; simpl; [ reflexivity | ].
  destruct (a ++ b)%string eqn:Hab; [ | exact IH ].
  destruct a; simpl in Hab; [ subst; discriminate | discriminate ].
Qed.

Lemma trimEnd_ends_black (s : string) :
  ends_black s = true -> trimEnd s = s.
Proof.
  induction s as [| x s IH]; simpl; [ discriminate | ].
  destruct s as [| y s'].
  - simpl. unfold not_white. intros H. apply negb_true_iff in H.
    now rewrite H.
  - intros H. change (is_empty (String y s')) with false in H.
    cbv iota in H. rewrite (IH H). simpl. now rewrite andb_false_r.
Qed.

Lemma line_safe_of (s : string) :
  all_chars not_LF s = true -> ends_black s = true -> line_safe s = true.
Proof.
  induction s as [| x s IH]; simpl; [ reflexivity | ].
  intros H Hb. apply andb_true_iff in H. destruct H as [Hx Hs].
  rewrite Hx. simpl. destruct s as [| y s'].
  - simpl in *. rewrite andb_true_r, orb_false_r.
    apply negb_true_iff. apply Ascii.eqb_neq. intros ->.
    discriminate.
  - change (is_empty (String y s')) with false in *. cbv iota in Hb.
    rewrite orb_true_r. simpl. now apply IH.
Qed.

Lemma split_lines_one (a : string) :
  line_safe a = true -> split_lines a = [a].
Proof.
  induction a as [| x a IH]; [ reflexivity | ].
  intros H. simpl in H.
  apply andb_true_iff in H. destruct H as [H Ha].
  apply andb_true_iff in H. destruct H as [Hx _].
  unfold not_LF in Hx. apply negb_true_iff in Hx.
  specialize (IH Ha).
  destruct a as [| y a'].
  - simpl. now rewrite Hx.
  - assert (Hy : Ascii.eqb y LF = false).
    { simpl in Ha. apply andb_true_iff in Ha. destruct Ha as [Ha _].
      apply andb_true_iff in Ha. destruct Ha as [Hy _].
      unfold not_LF in Hy. now apply negb_true_iff in Hy. }
    change (split_lines (String x (String y a')))
      with (if Ascii.eqb x LF then EmptyString :: split_lines (String y a')
            else if Ascii.eqb x CR && Ascii.eqb y LF
                 then EmptyString :: split_lines a'
                 else cons_head x (split_lines (String y a'))).
    rewrite Hx, Hy, andb_false_r, IH. reflexivity.
Qed.

Lemma split_lines_cons (a rest : string) :
  line_safe a = true ->
  split_lines (a ++ String LF rest) = a :: split_lines rest.
Proof.
  induction a as [| x a IH]; [ reflexivity | ].
  intros H. simpl in H.
  apply andb_true_iff in H. destruct H as [H Ha].
  apply andb_true_iff in H. destruct H as [Hx Hcr].
  unfold not_LF in Hx. apply negb_true_iff in Hx.
  specialize (IH Ha).
  destruct a as [| y a'].
  - simpl. rewrite Hx. simpl in Hcr. rewrite orb_false_r in Hcr.
    apply negb_true_iff in Hcr. now rewrite Hcr.
  - assert (Hy : Ascii.eqb y LF = false).
    { simpl in Ha. apply andb_true_iff in Ha. destruct Ha as [Ha _].
      apply andb_true_iff in Ha. destruct Ha as [Hy _].
      unfold not_LF in Hy. now apply negb_true_iff in Hy. }
    change (split_lines (String x (String y a') ++ String LF rest))
      with (if Ascii.eqb x LF
            then EmptyString :: split_lines (String y a' ++ String LF rest)
            else if Ascii.eqb x CR && Ascii.eqb y LF
                 then EmptyString :: split_lines (a' ++ String LF rest)
                 else cons_head x
                        (split_lines (String y a' ++ String LF rest))).
    rewrite Hx, Hy, andb_false_r, IH. reflexivity.
Qed.

Lemma split_lines_join (x : string) (xs : list string) :
  forallb line_safe (x :: xs) = true ->
  split_lines (join (String LF EmptyString) (x :: xs)) = x :: xs.
Proof.
  revert x. induction xs as [| y ys IH]; intros x H.
  - simpl in *. rewrite andb_true_r in H. now apply split_lines_one.
  - change (join (String LF EmptyString) (x :: y :: ys))
      with (x ++ String LF (join (String LF EmptyString) (y :: ys)))%string.
    simpl in H. apply andb_true_iff in H. destruct H as [Hx Hr].
    rewrite split_lines_cons by exact Hx.
    f_equal. apply IH. exact Hr.
Qed.

Lemma ends_black_join (x : string) (xs : list string) :
  forallb ends_black (x :: xs) = true ->
  ends_black (join (String LF EmptyString) (x :: xs)) = true.
Proof.
  revert x. induction xs as [| y ys IH]; intros x H.
  - simpl in *. now rewrite andb_true_r in H.
  - change (join (String LF EmptyString) (x :: y :: ys))
      with (x ++ String LF (join (String LF EmptyString) (y :: ys)))%string.
    simpl in H. apply andb_true_iff in H. destruct H as [_ Hr].
    specialize (IH y Hr).
    rewrite ends_black_app by reflexivity.
    remember (join (String LF EmptyString) (y :: ys)) as j.
    destruct j; [ discriminate | exact IH ].
Qed.

Lemma ends_black_cons (c : ascii) (s : string) :
  is_empty s = false -> ends_black (String c s) = ends_black s.
Proof. destruct s; [ discriminate | reflexivity ]. Qed.

Lemma ends_black_esc (v : string) : ends_black (esc v) = true.
Proof.
  unfold esc. rewrite ends_black_cons.
  - now rewrite ends_black_app by reflexivity.
  - destruct (double_quotes v); reflexivity.
Qed.

Lemma not_LF_esc (v : string) :
  plain_field v = true -> all_chars not_LF (esc v) = true.
Proof.
  intros H. unfold esc.
  rewrite double_quotes_plain by now apply plain_not_quote.
  simpl. rewrite all_chars_app, (plain_not_LF _ H). reflexivity.
Qed.

Lemma token_not_LF (c : ascii) : token_char c = true -> not_LF c = true.
Proof.
  unfold token_char, not_white, not_LF. intros H.
  apply andb_true_iff in H. destruct H as [_ H].
  apply negb_true_iff in H. apply negb_true_iff.
  apply Ascii.eqb_neq. intros ->. discriminate.
Qed.

Lemma csv_row_ends_black (r : User) : ends_black (csv_row r) = true.
Proof.
  rewrite csv_row_eq.
  rewrite ends_black_app by reflexivity.
  rewrite ends_black_cons.
  - rewrite ends_black_app by reflexivity.
    rewrite ends_black_cons; [ apply ends_black_esc | ].
    apply ends_black_nonempty, ends_black_esc.
  - destruct (esc (name r)); reflexivity.
Qed.

Lemma all_chars_cons (p : ascii -> bool) (c : ascii) (s : string) :
  all_chars p (String c s) = p c && all_chars p s.
Proof. reflexivity. Qed.

Lemma csv_row_line_safe (r : User) :
  plain_user r = true -> line_safe (csv_row r) = true.
Proof.
  intros H. apply line_safe_of; [ | apply csv_row_ends_black ].
  apply andb_true_iff in H. destruct H as [Hn He].
  rewrite csv_row_eq, all_chars_app, all_chars_cons, all_chars_app,
    all_chars_cons.
  rewrite (not_LF_esc _ Hn), (not_LF_esc _ He).
  rewrite (all_chars_weaken token_char not_LF _ token_not_LF
             (String_token (id r))).
  reflexivity.
Qed.

Lemma trim_toCSV (rows : list User) : trim (toCSV rows) = toCSV rows.
Proof.
  unfold trim.
  assert (Hs : trimStart (toCSV rows) = toCSV rows).
  { unfold toCSV. destruct rows; reflexivity. }
  rewrite Hs. apply trimEnd_ends_black.
  unfold toCSV. apply ends_black_join.
  simpl. apply forallb_forall. intros x Hin.
  apply in_map_iff in Hin. destruct Hin as [r [<- _]].
  apply csv_row_ends_black.
Qed.

(** On records whose name and email hold no quote character and no line
    feed, commas allowed, [parseCSV] gives back what [toCSV] was given. *)
Theorem parseCSV_toCSV_plain (rows : list User) :
  forallb plain_user rows = true -> parseCSV (toCSV rows) = rows.
Proof.
  intros H. unfold parseCSV. rewrite trim_toCSV. unfold toCSV.
  rewrite split_lines_join.
  - change (index_header (header_of csv_header)) with (mkIdx 0 1 2).
    rewrite map_map.
    rewrite forallb_forall in H.
    induction rows as [| r rows IH]; simpl; [ reflexivity | ].
    rewrite parse_line_row by (apply H; now left).
    f_equal. apply IH. intros x Hx. apply H. now right.
  - simpl. apply forallb_forall. intros x Hin.
    apply in_map_iff in Hin. destruct Hin as [r [<- Hr]].
    apply csv_row_line_safe.
    rewrite forallb_forall in H. now apply H.
Qed.

Lemma parseCSV_toCSV_plain_witness :
  parseCSV (toCSV [mkUser (Int 1) "A,B" "x@y.com"; mkUser (Int (-7)) "" "c"])
  = [mkUser (Int 1) "A,B" "x@y.com"; mkUser (Int (-7)) "" "c"].
Proof. apply parseCSV_toCSV_plain. reflexivity. Defined.

End RoundTrip.

(* ====================================================================== *)
(** * Search and sort of the view *)

Module Search.

Lemma startsWith_iff (s p : string) :
  startsWith s p = true <-> exists post, s = (p ++ post)%string.
Proof.
  revert s. induction p as [| b p IH]; intros s.
  - destruct s; simpl; split; intros _; try reflexivity; eexists; reflexivity.
  - destruct s as [| a s]; simpl.
    + split; [ discriminate | intros [post H]; discriminate ].
    + rewrite andb_true_iff, IH. split.
      * intros [Hab [post ->]]. apply Ascii.eqb_eq in Hab. subst.
        now exists post.
      * intros [post H]. inversion H; subst. split.
        -- apply Ascii.eqb_refl.
        -- now exists post.
Qed.

(** [includes] says whether the text holds the other one as a part. *)
Lemma includes_iff (s sub : string) :
  includes s sub = true <-> part_of sub s.
Proof.
  unfold part_of. induction s as [| a s IH].
  - change (includes EmptyString sub)
      with (startsWith EmptyString sub || false).
    rewrite orb_false_r, startsWith_iff. split.
    + intros [post H]. exists EmptyString, post. exact H.
    + intros [pre [post H]]. destruct pre; simpl in H.
      * now exists post.
      * discriminate.
  - change (includes (String a s) sub)
      with (startsWith (String a s) sub || includes s sub).
    rewrite orb_true_iff, startsWith_iff, IH. split.
    + intros [[post H] | [pre [post H]]].
      * exists EmptyString, post. exact H.
      * exists (String a pre), post. simpl. now rewrite H.
    + intros [pre [post H]]. destruct pre as [| c pre]; simpl in H.
      * left. now exists post.
      * right. inversion H; subst. now exists pre, post.
Qed.

Lemma insert_sorted_perm (cmp : User -> User -> Z) (x : User)
  (l : list User) :
  Permutation (insert_sorted cmp x l) (x :: l).
Proof.
  induction l as [| y r IH]; simpl; [ reflexivity | ].
  destruct (cmp x y <=? 0); [ reflexivity | ].
  rewrite IH. apply perm_swap.
Qed.

Lemma sort_perm (cmp : User -> User -> Z) (l : list User) :
  Permutation (sort cmp l) l.
Proof.
  induction l as [| x r IH]; simpl; [ reflexivity | ].
  rewrite insert_sorted_perm. now constructor.
Qed.

Section WithCollator.

Variable cc : string -> string -> Z.

(** The search keeps exactly the users whose lower-cased name or email
    holds the lower-cased, trimmed query as a part, and the sort only
    reorders them: no row is made up, lost or shown twice. *)
Theorem filtered_exactly_matching (us : list User) (vs : ViewState)
  (u : User) :
  let q := toLowerCase (trim (query vs)) in
  (In u (filtered cc us vs) <-> In u us /\ matches q u)
  /\ (List.length (filtered cc us vs) <= List.length us)%nat
  /\ (q = EmptyString -> Permutation (filtered cc us vs) us).
Proof.
  intros q. unfold filtered. fold q.
  split; [ | split ].
  - rewrite (Permutation_in' (eq_refl u) (sort_perm _ _)).
    destruct (is_empty q) eqn:Hq.
    + destruct q; [ | discriminate ].
      split; [ | tauto ]. intros H. split; [ exact H | ].
      left. exists EmptyString, (toLowerCase (name u)). reflexivity.
    + rewrite filter_In, orb_true_iff, !includes_iff. reflexivity.
  - rewrite (Permutation_length (sort_perm _ _)).
    destruct (is_empty q); [ lia | apply filter_length_le ].
  - intros ->. simpl. apply sort_perm.
Qed.

End WithCollator.

(** *** Sorting by id *)

Lemma insert_sorted_sorted (cmp : User -> User -> Z) (P : User -> Prop)
  (x : User) (l : list User) :
  (forall a b, P a -> P b -> cmp a b <= 0 \/ cmp b a <= 0) ->
  (forall a b c, P a -> P b -> P c ->
                 cmp a b <= 0 -> cmp b c <= 0 -> cmp a c <= 0) ->
  P x -> Forall P l ->
  StronglySorted (le_by cmp) l ->
  StronglySorted (le_by cmp) (insert_sorted cmp x l).
Proof.
  intros Htot Htr Hx HP Hs.
  induction l as [| y r IH]; simpl.
  - constructor; constructor.
  - inversion HP as [| ? ? Hy Hr]; subst.
    inversion Hs as [| ? ? Hsr Hall]; subst.
    destruct (Z.leb_spec (cmp x y) 0) as [Hle | Hgt].
    + constructor; [ exact Hs | ].
      constructor; [ exact Hle | ].
      rewrite Forall_forall in *. intros z Hz.
      unfold le_by. apply (Htr x y z); auto.
      now apply Hall.
    + constructor; [ now apply IH | ].
      assert (Hyx : cmp y x <= 0).
      { destruct (Htot x y Hx Hy); [ lia | assumption ]. }
      rewrite Forall_forall. intros z Hz.
      apply (Permutation_in _ (insert_sorted_perm cmp x r)) in Hz.
      destruct Hz as [<- | Hz]; [ exact Hyx | ].
      rewrite Forall_forall in Hall. now apply Hall.
Qed.

Lemma sort_sorted (cmp : User -> User -> Z) (P : User -> Prop)
  (l : list User) :
  (forall a b, P a -> P b -> cmp a b <= 0 \/ cmp b a <= 0) ->
  (forall a b c, P a -> P b -> P c ->
                 cmp a b <= 0 -> cmp b c <= 0 -> cmp a c <= 0) ->
  Forall P l ->
  StronglySorted (le_by cmp) (sort cmp l).
Proof.
  intros Htot Htr HP. induction l as [| x r IH]; simpl.
  - constructor.
  - inversion HP; subst.
    apply (insert_sorted_sorted cmp P); auto.
    rewrite Forall_forall in *. intros z Hz.
    apply (Permutation_in _ (sort_perm cmp r)) in Hz. auto.
Qed.

Lemma StronglySorted_on (R R' : User -> User -> Prop) (P : User -> Prop)
  (l : list User) :
  (forall a b, P a -> P b -> R a b -> R' a b) ->
  Forall P l -> StronglySorted R l -> StronglySorted R' l.
Proof.
  intros Himp HP Hs. induction Hs as [| a l Hs IH Hall]; [ constructor | ].
  inversion HP as [| ? ? Ha Hl]; subst.
  constructor; [ now apply IH | ].
  rewrite Forall_forall in *. intros b Hb. apply Himp; auto.
Qed.

Lemma Forall_filter {A : Type} (P : A -> Prop) (f : A -> bool)
  (l : list A) :
  Forall P l -> Forall P (filter f l).
Proof.
  rewrite !Forall_forall. intros H x Hx. apply filter_In in Hx. now apply H.
Qed.

Section ById.

Variable cc : string -> string -> Z.

Lemma compare_by_id (vs : ViewState) (a b : User) :
  sortBy vs = by_id -> int_id a -> int_id b ->
  compare_users cc vs a b
  = match sortDir vs with
    | asc => id_value a - id_value b
    | desc => - (id_value a - id_value b)
    end.
Proof.
  intros Hk [x Ha] [y Hb]. unfold compare_users, id_value.
  now rewrite Hk, Ha, Hb.
Qed.

Lemma sorted_by_id (us : list User) (vs : ViewState) :
  Forall int_id us ->
  sortBy vs = by_id ->
  StronglySorted (id_order (sortDir vs)) (filtered cc us vs).
Proof.
  intros Hint Hk. unfold filtered.
  set (l := if is_empty (toLowerCase (trim (query vs))) then us
            else filter _ us).
  assert (Hl : Forall int_id l).
  { unfold l. destruct (is_empty _); [ exact Hint | ].
    now apply Forall_filter. }
  assert (Hsl : Forall int_id (sort (compare_users cc vs) l)).
  { rewrite Forall_forall in *. intros x Hx.
    apply (Permutation_in _ (sort_perm _ l)) in Hx. auto. }
  apply (StronglySorted_on (le_by (compare_users cc vs)) _ int_id);
    [ | exact Hsl | ].
  - intros a b Ha Hb. unfold le_by, id_order.
    rewrite (compare_by_id vs a b Hk Ha Hb).
    destruct (sortDir vs); lia.
  - apply (sort_sorted _ int_id); [ | | exact Hl ].
    + intros a b Ha Hb.
      rewrite (compare_by_id vs a b Hk Ha Hb),
              (compare_by_id vs b a Hk Hb Ha).
      destruct (sortDir vs); lia.
    + intros a b c Ha Hb Hc.
      rewrite (compare_by_id vs a b Hk Ha Hb),
              (compare_by_id vs b c Hk Hb Hc),
              (compare_by_id vs a c Hk Ha Hc).
      destruct (sortDir vs); lia.
Qed.

(** When every id is an integer and the sort key is the id, the rows of
    the view are in the order of their ids: rising for [asc], falling for
    [desc]. *)
Theorem filtered_sorted_by_id (us : list User) (vs : ViewState) :
  Forall int_id us ->
  sortBy vs = by_id ->
  StronglySorted (id_order (sortDir vs)) (filtered cc us vs).
Proof. apply sorted_by_id. Qed.

Lemma filtered_in_users (us : list User) (vs : ViewState) (u : User) :
  In u (filtered cc us vs) -> In u us.
Proof.
  unfold filtered. intros H.
  apply (Permutation_in _ (sort_perm _ _)) in H.
  destruct (is_empty (toLowerCase (trim (query vs)))); [ exact H | ].
  apply filter_In in H. tauto.
Qed.

Lemma filtered_perm_dir (us : list User) (vs vs' : ViewState) :
  query vs' = query vs ->
  Permutation (filtered cc us vs') (filtered cc us vs).
Proof.
  intros Hq. unfold filtered. rewrite Hq.
  rewrite (sort_perm (compare_users cc vs')).
  symmetry. apply sort_perm.
Qed.

End ById.

Lemma filtered_sorted_by_id_witness :
  StronglySorted (id_order desc)
    (filtered sample_collator [ann; cat; bob]
       (mkView EmptyString by_id desc 1 8)).
Proof.
  apply (filtered_sorted_by_id sample_collator [ann; cat; bob]
           (mkView EmptyString by_id desc 1 8)).
  - repeat constructor; eexists; reflexivity.
  - reflexivity.
Defined.

(** *** Stability *)

Lemma filter_insert_out (cmp : User -> User -> Z) (p : User -> bool)
  (x : User) (l : list User) :
  p x = false -> filter p (insert_sorted cmp x l) = filter p l.
Proof.
  intros Hx. induction l as [| y r IH]; simpl.
  - now rewrite Hx.
  - destruct (cmp x y <=? 0); simpl.
    + now rewrite Hx.
    + now rewrite IH.
Qed.

Lemma filter_insert_in (cmp : User -> User -> Z) (p : User -> bool)
  (x : User) (l : list User) :
  p x = true ->
  (forall y, In y l -> p y = true -> cmp x y <= 0) ->
  filter p (insert_sorted cmp x l) = x :: filter p l.
Proof.
  intros Hx Hle. induction l as [| y r IH]; simpl.
  - now rewrite Hx.
  - destruct (Z.leb_spec (cmp x y) 0) as [Hc | Hc]; simpl.
    + now rewrite Hx.
    + destruct (p y) eqn:Hy.
      * specialize (Hle y (or_introl eq_refl) Hy). lia.
      * apply IH. intros z Hz. apply Hle. now right.
Qed.

Lemma filter_sort (cmp : User -> User -> Z) (p : User -> bool)
  (l : list User) :
  (forall x y, In x l -> In y l -> p x = true -> p y = true ->
               cmp x y <= 0) ->
  filter p (sort cmp l) = filter p l.
Proof.
  induction l as [| x r IH]; intros H; simpl; [ reflexivity | ].
  assert (Hr : filter p (sort cmp r) = filter p r).
  { apply IH. intros a b Ha Hb. apply H; now right. }
  destruct (p x) eqn:Hx.
  - rewrite filter_insert_in, Hr; auto.
    intros y Hy Hpy. apply H; auto; [ now left | right ].
    now apply (Permutation_in _ (sort_perm cmp r)).
  - now rewrite filter_insert_out, Hr.
Qed.

Section Stable.

Variable cc : string -> string -> Z.

(** The sort is stable for the id key: with integer ids, the rows that
    share an id are shown in the order they have in the user list. *)
Theorem same_id_keeps_order (us : list User) (vs : ViewState) (k : Z) :
  Forall int_id us ->
  sortBy vs = by_id ->
  let q := toLowerCase (trim (query vs)) in
  filter (fun u => strict_eq (id u) (Int k)) (filtered cc us vs)
  = filter (fun u => strict_eq (id u) (Int k))
           (if is_empty q then us else filter (search_hit q) us).
Proof.
  intros Hint Hk q. unfold filtered. fold q.
  change (fun u => includes (toLowerCase (name u)) q
                   || includes (toLowerCase (email u)) q)
    with (search_hit q).
  set (l := if is_empty q then us else filter (search_hit q) us).
  assert (Hl : Forall int_id l).
  { unfold l. destruct (is_empty q); [ exact Hint | ].
    now apply Forall_filter. }
  apply filter_sort. rewrite Forall_forall in Hl.
  intros x y Hx Hy Hpx Hpy.
  rewrite (compare_by_id cc vs x y Hk (Hl x Hx) (Hl y Hy)).
  apply Sync.strict_eq_eq in Hpx. apply Sync.strict_eq_eq in Hpy.
  unfold id_value. rewrite Hpx, Hpy. destruct (sortDir vs); lia.
Qed.

End Stable.

Lemma same_id_keeps_order_witness :
  filter (fun u => strict_eq (id u) (Int 1))
    (filtered sample_collator
       [bob; mkUser (Int 1) "first" "f@x.com"; ann]
       (mkView EmptyString by_id asc 1 8))
  = [mkUser (Int 1) "first" "f@x.com"; ann].
Proof.
  apply (same_id_keeps_order sample_collator
           [bob; mkUser (Int 1) "first" "f@x.com"; ann]
           (mkView EmptyString by_id asc 1 8) 1).
  - repeat constructor; eexists; reflexivity.
  - reflexivity.
Defined.

(** *** Reversing the direction *)

Lemma sorted_snoc (R : User -> User -> Prop) (l : list User) (a : User) :
  StronglySorted R l -> Forall (fun x => R x a) l ->
  StronglySorted R (l ++ [a]).
Proof.
  intros Hs Hall. induction Hs as [| b l Hs IH Hb]; simpl.
  - constructor; constructor.
  - inversion Hall; subst. constructor; [ now apply IH | ].
    apply Forall_app. split; [ exact Hb | ]. now constructor.
Qed.

Lemma sorted_rev (R : User -> User -> Prop) (l : list User) :
  StronglySorted R l -> StronglySorted (fun a b => R b a) (rev l).
Proof.
  intros Hs. induction Hs as [| a l Hs IH Ha]; simpl; [ constructor | ].
  apply sorted_snoc; [ exact IH | ].
  rewrite Forall_forall in *. intros x Hx. apply Ha.
  now apply in_rev.
Qed.

Lemma sorted_perm_unique (R : User -> User -> Prop) (l1 l2 : list User) :
  (forall a b, In a l1 -> In b l1 -> R a b -> R b a -> a = b) ->
  StronglySorted R l1 -> StronglySorted R l2 -> Permutation l1 l2 ->
  l1 = l2.
Proof.
  revert l2. induction l1 as [| a r1 IH]; intros l2 Hanti H1 H2 Hp.
  - apply Permutation_nil in Hp. now subst.
  - destruct l2 as [| b r2].
    + apply Permutation_sym, Permutation_nil in Hp. discriminate.
    + inversion H1 as [| ? ? Hs1 Ha]; subst.
      inversion H2 as [| ? ? Hs2 Hb]; subst.
      rewrite Forall_forall in Ha, Hb.
      assert (Hab : a = b).
      { assert (Hin_a : In a (b :: r2))
          by (apply (Permutation_in _ Hp); now left).
        assert (Hin_b : In b (a :: r1))
          by (apply (Permutation_in _ (Permutation_sym Hp)); now left).
        destruct Hin_a as [-> | Hin_a]; [ reflexivity | ].
        destruct Hin_b as [-> | Hin_b]; [ reflexivity | ].
        apply Hanti; [ now left | now right | now apply Ha | now apply Hb ]. }
      subst b. f_equal.
      apply IH; auto.
      * intros x y Hx Hy. apply Hanti; now right.
      * now apply Permutation_cons_inv in Hp.
Qed.

Lemma same_id_same_user (l : list User) (a b : User) :
  unique_ids l -> In a l -> In b l -> id a = id b -> a = b.
Proof.
  unfold unique_ids. induction l as [| x r IH]; simpl; intros Hn Ha Hb He.
  - contradiction.
  - inversion Hn as [| ? ? Hnot Hr]; subst.
    destruct Ha as [-> | Ha]; destruct Hb as [-> | Hb]; auto.
    + exfalso. apply Hnot. rewrite He. now apply in_map.
    + exfalso. apply Hnot. rewrite <- He. now apply in_map.
Qed.

Section Reverse.

Variable cc : string -> string -> Z.

(** With integer ids that are all different, a click on the head of the
    id column while the rows are sorted by id shows the same rows in the
    reverse order. *)
Theorem click_id_column_reverses (us : list User) (vs : ViewState) :
  Forall int_id us ->
  unique_ids us ->
  sortBy vs = by_id ->
  filtered cc us (click_column by_id vs) = rev (filtered cc us vs).
Proof.
  intros Hint Huniq Hk.
  set (vs' := click_column by_id vs).
  assert (Hk' : sortBy vs' = by_id).
  { unfold vs', click_column. rewrite Hk. reflexivity. }
  assert (Hd' : sortDir vs' = match sortDir vs with asc => desc
                                                | desc => asc end).
  { unfold vs', click_column. rewrite Hk. reflexivity. }
  assert (Hq' : query vs' = query vs).
  { unfold vs', click_column. rewrite Hk. reflexivity. }
  apply (sorted_perm_unique (id_order (sortDir vs'))).
  - intros a b Ha Hb Hab Hba.
    apply filtered_in_users in Ha. apply filtered_in_users in Hb.
    apply (same_id_same_user us); auto.
    rewrite Forall_forall in Hint.
    destruct (Hint a Ha) as [x Hx]. destruct (Hint b Hb) as [y Hy].
    unfold id_order, id_value in Hab, Hba. rewrite Hx, Hy in *.
    f_equal. destruct (sortDir vs'); lia.
  - now apply sorted_by_id.
  - pose proof (sorted_rev _ _ (sorted_by_id cc us vs Hint Hk)) as Hr.
    rewrite Hd'. destruct (sortDir vs); exact Hr.
  - rewrite (filtered_perm_dir cc us vs vs' Hq').
    apply Permutation_rev.
Qed.

End Reverse.

Lemma click_id_column_reverses_witness :
  filtered sample_collator [bob; cat; ann]
    (click_column by_id (mkView EmptyString by_id asc 1 8))
  = rev (filtered sample_collator [bob; cat; ann]
           (mkView EmptyString by_id asc 1 8)).
Proof.
  apply (click_id_column_reverses sample_collator [bob; cat; ann]
           (mkView EmptyString by_id asc 1 8)).
  - repeat constructor; eexists; reflexivity.
  - unfold unique_ids; simpl.
    repeat constructor; simpl; intros H;
      repeat (destruct H as [H | H]; [ discriminate | ]); exact H.
  - reflexivity.
Defined.

Lemma filtered_exactly_matching_witness :
  Permutation
    (filtered sample_collator [bob; ann]
       (mkView "  " by_name asc 1 8))
    [bob; ann].
Proof.
  apply (filtered_exactly_matching sample_collator [bob; ann]
           (mkView "  " by_name asc 1 8) ann).
  reflexivity.
Defined.

End Search.

(* ====================================================================== *)
(** * Pages of the view *)

Module Paging.

Section WithCollator.

Variable cc : string -> string -> Z.

Lemma filtered_set_page (us : list User) (vs : ViewState) (p : Z) :
  filtered cc us (set_page p vs) = filtered cc us vs.
Proof. reflexivity. Qed.

Lemma pages_set_page (us : list User) (vs : ViewState) (p : Z) :
  pages cc us (set_page p vs) = pages cc us vs.
Proof. reflexivity. Qed.

Lemma pages_bounds (us : list User) (vs : ViewState) :
  0 < pageSize vs ->
  total cc us vs <= pages cc us vs * pageSize vs
  /\ (0 < total cc us vs ->
      (pages cc us vs - 1) * pageSize vs < total cc us vs).
Proof.
  intros Hps. unfold pages.
  pose proof (View.ceil_div_bounds (total cc us vs) (pageSize vs) Hps).
  split; [ nia | intros Ht; nia ].
Qed.

Lemma pageRows_window (us : list User) (vs : ViewState) :
  0 < pageSize vs -> 1 <= page vs ->
  pageRows cc us vs
  = firstn (Z.to_nat (pageSize vs))
      (skipn (Z.to_nat ((pageSafe cc us vs - 1) * pageSize vs))
             (filtered cc us vs)).
Proof.
  intros Hps Hp. unfold pageRows. apply View.slice_window; [ | lia ].
  unfold pageSafe, pages. nia.
Qed.

(** Paging loses no row: the row at position [k] of the filtered and
    sorted list is shown on page [k / pageSize + 1], which is one of the
    pages, at position [k mod pageSize]. *)
Theorem every_row_on_its_page (us : list User) (vs : ViewState)
  (k : nat) (u : User) :
  0 < pageSize vs ->
  nth_error (filtered cc us vs) k = Some u ->
  let p := Z.of_nat k / pageSize vs + 1 in
  1 <= p <= pages cc us vs
  /\ nth_error (pageRows cc us (set_page p vs))
               (Z.to_nat (Z.of_nat k mod pageSize vs)) = Some u.
Proof.
  intros Hps Hnth p.
  assert (Hk : Z.of_nat k < total cc us vs).
  { unfold total. apply Nat2Z.inj_lt. apply nth_error_Some.
    now rewrite Hnth. }
  pose proof (pages_bounds us vs Hps) as [Hup _].
  pose proof (Z.div_mod (Z.of_nat k) (pageSize vs) ltac:(lia)) as Hdm.
  pose proof (Z.mod_pos_bound (Z.of_nat k) (pageSize vs) Hps) as Hm.
  pose proof (Z.div_pos (Z.of_nat k) (pageSize vs) ltac:(lia) Hps) as Hd.
  assert (Hp : 1 <= p <= pages cc us vs).
  { unfold p. split; [ lia | ].
    assert (Z.of_nat k / pageSize vs < pages cc us vs); [ | lia ].
    apply Z.div_lt_upper_bound; [ exact Hps | ]. nia. }
  split; [ exact Hp | ].
  rewrite pageRows_window by (simpl; lia).
  assert (Hsafe : pageSafe cc us (set_page p vs) = p).
  { unfold pageSafe. rewrite pages_set_page. simpl. lia. }
  rewrite Hsafe, filtered_set_page. simpl pageSize.
  rewrite nth_error_firstn.
  assert (Hlt : Nat.ltb (Z.to_nat (Z.of_nat k mod pageSize vs))
                        (Z.to_nat (pageSize vs)) = true).
  { apply Nat.ltb_lt. lia. }
  rewrite Hlt, nth_error_skipn.
  replace (Z.to_nat ((p - 1) * pageSize vs)
           + Z.to_nat (Z.of_nat k mod pageSize vs))%nat with k; [ exact Hnth | ].
  unfold p. nia.
Qed.

(** When the filtered list has rows, the page shown has rows too, also
    when the requested page lies beyond the last one. *)
Theorem page_shown_not_empty (us : list User) (vs : ViewState) :
  0 < pageSize vs ->
  1 <= page vs ->
  filtered cc us vs <> [] ->
  pageRows cc us vs <> [].
Proof.
  intros Hps Hp Hne.
  assert (Ht : 0 < total cc us vs).
  { unfold total. destruct (filtered cc us vs); [ congruence | simpl; lia ]. }
  pose proof (pages_bounds us vs Hps) as [_ Hlow]. specialize (Hlow Ht).
  rewrite pageRows_window by assumption.
  set (start := (pageSafe cc us vs - 1) * pageSize vs).
  assert (Hstart : 0 <= start < total cc us vs).
  { unfold start, pageSafe.
    pose proof (View.pages_positive cc us vs). nia. }
  intros Hnil. apply (f_equal (@List.length User)) in Hnil.
  rewrite length_firstn, length_skipn in Hnil. simpl in Hnil.
  unfold total in Hstart. lia.
Qed.

(** The pager keeps the page between 1 and the page count. *)
Theorem pager_keeps_page_in_range (us : list User) (a : PagerAction)
  (vs : ViewState) :
  1 <= page vs <= pages cc us vs ->
  1 <= page (pager cc us a vs) <= pages cc us (pager cc us a vs).
Proof.
  intros Hp. pose proof (View.pages_positive cc us vs) as Hpos.
  destruct a; unfold pager.
  - rewrite pages_set_page. simpl. lia.
  - rewrite pages_set_page. simpl. lia.
  - rewrite pages_set_page. simpl. lia.
  - rewrite pages_set_page. simpl. lia.
  - pose proof (View.pages_positive cc us
                  (mkView (query vs) (sortBy vs) (sortDir vs) 1 n)).
    simpl. lia.
Qed.

End WithCollator.

Lemma every_row_on_its_page_witness :
  nth_error
    (pageRows sample_collator [ann; bob; cat]
       (set_page 2 (mkView EmptyString by_id asc 1 2)))
    0 = Some cat.
Proof.
  apply (every_row_on_its_page sample_collator [ann; bob; cat]
           (mkView EmptyString by_id asc 1 2) 2 cat);
    [ simpl; lia | reflexivity ].
Defined.

Lemma page_shown_not_empty_witness :
  pageRows sample_collator [ann; bob; cat]
    (mkView EmptyString by_id asc 7 2) <> [].
Proof.
  apply (page_shown_not_empty sample_collator [ann; bob; cat]
           (mkView EmptyString by_id asc 7 2));
    [ simpl; lia | simpl; lia | vm_compute; discriminate ].
Defined.

Lemma pager_keeps_page_in_range_witness :
  1 <= page (pager sample_collator [ann; bob; cat] NextPage
               (mkView EmptyString by_id asc 2 2))
    <= pages sample_collator [ann; bob; cat]
         (pager sample_collator [ann; bob; cat] NextPage
            (mkView EmptyString by_id asc 2 2)).
Proof.
  apply (pager_keeps_page_in_range sample_collator [ann; bob; cat] NextPage
           (mkView EmptyString by_id asc 2 2)).
  vm_compute. split; discriminate.
Defined.

End Paging.

(* ====================================================================== *)
(** * Selection *)

Module Selection.

Lemma same_value_zero_eq (a b : number) :
  same_value_zero a b = true <-> a = b.
Proof.
  destruct a as [x |], b as [y |]; simpl; split; intros H;
    try discriminate; try reflexivity.
  - apply Z.eqb_eq in H. now subst.
  - inversion H. apply Z.eqb_refl.
Qed.

(** [includes] on a list of ids is membership. *)
Lemma includes_num_In (s : list number) (i : number) :
  includes_num s i = true <-> In i s.
Proof.
  unfold includes_num. rewrite existsb_exists. split.
  - intros [x [Hx He]]. apply same_value_zero_eq in He. now subst.
  - intros H. exists i. split; [ exact H | now apply same_value_zero_eq ].
Qed.

Lemma includes_num_false (s : list number) (i : number) :
  includes_num s i = false <-> ~ In i s.
Proof.
  rewrite <- includes_num_In. destruct (includes_num s i); split; intros H.
  - discriminate.
  - exfalso. now apply H.
  - discriminate.
  - reflexivity.
Qed.

Lemma strict_eq_int (x : number) (z : Z) :
  strict_eq x (Int z) = true <-> x = Int z.
Proof.
  destruct x as [y |]; simpl; split; intros H; try discriminate.
  - apply Z.eqb_eq in H. now subst.
  - inversion H. apply Z.eqb_refl.
Qed.

(** The check box of a row with an integer id turns the selection of
    that id over and leaves every other id as it is. *)
Theorem toggle_row_flips (z : Z) (s : list number) (j : number) :
  (In (Int z) (toggle_row (Int z) s) <-> ~ In (Int z) s)
  /\ (j <> Int z -> (In j (toggle_row (Int z) s) <-> In j s)).
Proof.
  unfold toggle_row.
  destruct (includes_num s (Int z)) eqn:Hin.
  - apply includes_num_In in Hin. split.
    + rewrite filter_In. split; [ | tauto ].
      intros [_ H]. apply negb_true_iff in H.
      assert (strict_eq (Int z) (Int z) = true) by now apply strict_eq_int.
      congruence.
    + intros Hj. rewrite filter_In. split; [ tauto | ].
      intros H. split; [ exact H | ].
      apply negb_true_iff. destruct (strict_eq j (Int z)) eqn:He;
        [ | reflexivity ].
      apply strict_eq_int in He. contradiction.
  - apply includes_num_false in Hin. split.
    + rewrite in_app_iff. simpl. tauto.
    + intros Hj. rewrite in_app_iff. simpl. split; [ | tauto ].
      intros [H | [H | []]]; [ exact H | congruence ].
Qed.

Lemma set_from_In (seen xs : list number) (j : number) :
  In j (set_from seen xs) <-> In j xs /\ ~ In j seen.
Proof.
  revert seen. induction xs as [| x r IH]; intros seen; simpl.
  - tauto.
  - destruct (includes_num seen x) eqn:Hx.
    + apply includes_num_In in Hx. rewrite IH. split.
      * tauto.
      * intros [[-> | H] Hn]; [ contradiction | tauto ].
    + apply includes_num_false in Hx. simpl. rewrite IH. simpl. split.
      * intros [<- | [H Hn]]; [ tauto | tauto ].
      * intros [[<- | H] Hn]; [ now left | ].
        destruct (includes_num [x] j) eqn:Hj.
        -- apply includes_num_In in Hj. destruct Hj as [-> | []].
           now left.
        -- apply includes_num_false in Hj. right. split; [ exact H | ].
           intros [-> | Hs]; [ apply Hj; now left | contradiction ].
Qed.

Lemma set_from_NoDup (seen xs : list number) : NoDup (set_from seen xs).
Proof.
  revert seen. induction xs as [| x r IH]; intros seen; simpl.
  - constructor.
  - destruct (includes_num seen x); [ apply IH | ].
    constructor; [ | apply IH ].
    rewrite set_from_In. intros [_ H]. apply H. now left.
Qed.

Lemma allVisibleSelected_iff (rows : list User) (s : list number) :
  allVisibleSelected rows s = true
  <-> rows <> [] /\ forall r, In r rows -> In (id r) s.
Proof.
  unfold allVisibleSelected. rewrite andb_true_iff, forallb_forall. split.
  - intros [Hn H]. split.
    + intros ->. discriminate.
    + intros r Hr. apply includes_num_In. now apply H.
  - intros [Hn H]. split.
    + destruct rows; [ congruence | reflexivity ].
    + intros r Hr. apply includes_num_In. now apply H.
Qed.

Lemma toggle_page_add (rows : list User) (s : list number) (j : number) :
  allVisibleSelected rows s = false ->
  (In j (toggle_page rows s) <-> In j s \/ In j (map id rows)).
Proof.
  intros Hall. unfold toggle_page. rewrite Hall.
  rewrite set_from_In, in_app_iff. simpl. tauto.
Qed.

(** The check box in the table head. When not every row of the page is
    selected, it selects all of them, keeps what was selected, and leaves
    no id twice in the selection. When every row is selected and the ids
    of the page are integers, it takes exactly the ids of the page out. *)
Theorem toggle_page_selects_or_clears (rows : list User) (s : list number) :
  (allVisibleSelected rows s = false ->
   NoDup (toggle_page rows s)
   /\ (forall j, In j (toggle_page rows s) <-> In j s \/ In j (map id rows))
   /\ (rows <> [] -> allVisibleSelected rows (toggle_page rows s) = true))
  /\ (allVisibleSelected rows s = true ->
      Forall int_id rows ->
      (forall j, In j (toggle_page rows s)
                 <-> In j s /\ ~ In j (map id rows))
      /\ allVisibleSelected rows (toggle_page rows s) = false).
Proof.
  split.
  - intros Hall. unfold toggle_page. rewrite Hall.
    assert (Hin : forall j, In j (set_from [] (s ++ map id rows))
                            <-> In j s \/ In j (map id rows)).
    { intros j. rewrite set_from_In, in_app_iff. simpl. tauto. }
    split; [ apply set_from_NoDup | ].
    split; [ exact Hin | ].
    intros Hne. apply allVisibleSelected_iff. split; [ exact Hne | ].
    intros r Hr. apply Hin. right. now apply in_map.
  - intros Hall Hint. unfold toggle_page. rewrite Hall.
    assert (Hin : forall j,
               In j (filter (fun i => negb (existsb
                      (fun r => strict_eq (id r) i) rows)) s)
               <-> In j s /\ ~ In j (map id rows)).
    { intros j. rewrite filter_In, negb_true_iff.
      assert (Hex : existsb (fun r => strict_eq (id r) j) rows = true
                    <-> In j (map id rows)).
      { rewrite existsb_exists, in_map_iff. split.
        - intros [r [Hr He]]. exists r. split; [ | exact Hr ].
          now apply Sync.strict_eq_eq.
        - intros [r [He Hr]]. exists r. split; [ exact Hr | ].
          rewrite Forall_forall in Hint. destruct (Hint r Hr) as [z Hz].
          subst j. rewrite Hz. now apply strict_eq_int. }
      destruct (existsb (fun r => strict_eq (id r) j) rows).
      - split; [ intros [_ H]; discriminate | ].
        intros [_ H]. exfalso. apply H. now apply Hex.
      - split; [ | tauto ]. intros [H _]. split; [ exact H | ].
        intros Hc. apply Hex in Hc. discriminate. }
    split; [ exact Hin | ].
    apply allVisibleSelected_iff in Hall. destruct Hall as [Hne Hsel].
    destruct (allVisibleSelected rows _) eqn:Hnew; [ | reflexivity ].
    apply allVisibleSelected_iff in Hnew. destruct Hnew as [_ Hnew].
    destruct rows as [| r rows']; [ congruence | ].
    specialize (Hnew r (or_introl eq_refl)). apply Hin in Hnew.
    exfalso. apply Hnew. now left.
Qed.

Lemma toggle_page_selects_or_clears_witness :
  NoDup (toggle_page [ann; bob] [Int 2; Int 9])
  /\ allVisibleSelected [ann; bob]
       (toggle_page [ann; bob] (toggle_page [ann; bob] [Int 2; Int 9]))
     = false.
Proof.
  destruct (toggle_page_selects_or_clears [ann; bob] [Int 2; Int 9])
    as [Hsel _].
  destruct (toggle_page_selects_or_clears [ann; bob]
              (toggle_page [ann; bob] [Int 2; Int 9])) as [_ Hclr].
  split.
  - apply Hsel. reflexivity.
  - apply Hclr; [ reflexivity | ].
    repeat constructor; eexists; reflexivity.
Defined.

Lemma toggle_row_flips_witness :
  (In (Int 4) (toggle_row (Int 4) [Int 2]) <-> ~ In (Int 4) [Int 2])
  /\ (In (Int 2) (toggle_row (Int 4) [Int 2]) <-> In (Int 2) [Int 2]).
Proof.
  destruct (toggle_row_flips 4 [Int 2] (Int 2)) as [Hflip Hkeep].
  split; [ exact Hflip | apply Hkeep; discriminate ].
Defined.

(** Selecting the page from an empty selection and confirming the bulk
    delete takes out of the list, before any answer, exactly the users
    whose id is on the page. *)
Theorem select_page_then_delete (rows : list User) (s : State) (u : User) :
  In u (users (removeSelected_begin (setSelected (toggle_page rows []) s)))
  <-> In u (users s) /\ ~ In (id u) (map id rows).
Proof.
  unfold removeSelected_begin. simpl.
  rewrite filter_In, negb_true_iff, includes_num_false.
  assert (Hno : allVisibleSelected rows [] = false).
  { unfold allVisibleSelected. destruct rows; reflexivity. }
  destruct (toggle_page_add rows [] (id u) Hno) as [H1 H2].
  split; intros [Hu Hn]; (split; [ exact Hu | ]); intros Hc; apply Hn.
  - apply H2. now right.
  - destruct (H1 Hc) as [[] | H]. exact H.
Qed.

End Selection.

(* ====================================================================== *)
(** * What the CSV reader gives, and the import *)

Module Importing.

Lemma scan_cells_no_quote (line cur : string) (inQ : bool) :
  all_chars not_quote cur = true ->
  Forall (fun c => all_chars not_quote c = true) (scan_cells line cur inQ).
Proof.
  revert cur inQ. induction line as [| ch r IH]; intros cur inQ Hcur; simpl.
  - now constructor.
  - destruct (Ascii.eqb ch dquote) eqn:Hq; [ now apply IH | ].
    destruct (Ascii.eqb ch comma && negb inQ).
    + constructor; [ exact Hcur | now apply IH ].
    + apply IH. rewrite RoundTrip.all_chars_app, Hcur. simpl.
      unfold not_quote. now rewrite Hq.
Qed.

Lemma get_no_quote (cells : list string) (i : Z) (c : string) :
  Forall (fun c => all_chars not_quote c = true) cells ->
  get cells i = Some c -> all_chars not_quote c = true.
Proof.
  intros Hall. unfold get.
  destruct (0 <=? i); [ | discriminate ].
  destruct (nth_error cells (Z.to_nat i)) as [x |] eqn:Hn; [ | discriminate ].
  intros H. inversion H; subst; clear H.
  rewrite Forall_forall in Hall.
  pose proof (Hall x (nth_error_In _ _ Hn)) as Hx.
  now rewrite RoundTrip.strip_outer_quotes_plain,
              RoundTrip.undouble_quotes_plain.
Qed.

Lemma or_else_no_quote (cells : list string) (i : Z) :
  Forall (fun c => all_chars not_quote c = true) cells ->
  all_chars not_quote (or_else (get cells i) EmptyString) = true.
Proof.
  intros Hall. unfold or_else.
  destruct (get cells i) as [c |] eqn:Hg; [ | reflexivity ].
  destruct (is_empty c); [ reflexivity | ].
  now apply (get_no_quote cells i).
Qed.

(** Whatever the text, no name and no email that [parseCSV] gives holds
    a quote character. *)
Theorem parseCSV_never_yields_quote (csv : string) (r : User) :
  In r (parseCSV csv) ->
  all_chars not_quote (name r) = true
  /\ all_chars not_quote (email r) = true.
Proof.
  rewrite Csv.parseCSV_lines. intros Hin.
  apply in_map_iff in Hin. destruct Hin as [line [<- _]].
  unfold parse_line; simpl.
  split; apply or_else_no_quote; apply scan_cells_no_quote; reflexivity.
Qed.

Lemma parseCSV_never_yields_quote_witness :
  all_chars not_quote
    (name (mkUser (Int 1) "AB" "x@y.com")) = true.
Proof.
  apply (parseCSV_never_yields_quote
           (toCSV [mkUser (Int 1) quoted_name "x@y.com"])
           (mkUser (Int 1) "AB" "x@y.com")).
  vm_compute. now left.
Defined.

Lemma parse_export_plain (rows : list User) :
  forallb plain_user rows = true -> parseCSV (toCSV rows) = rows.
Proof.
  intros H. unfold parseCSV. rewrite RoundTrip.trim_toCSV. unfold toCSV.
  rewrite RoundTrip.split_lines_join.
  - change (index_header (header_of csv_header)) with (mkIdx 0 1 2).
    rewrite map_map. rewrite forallb_forall in H.
    induction rows as [| r rows IH]; simpl; [ reflexivity | ].
    rewrite RoundTrip.parse_line_row by (apply H; now left).
    f_equal. apply IH. intros x Hx. apply H. now right.
  - simpl. apply forallb_forall. intros x Hin.
    apply in_map_iff in Hin. destruct Hin as [r [<- Hr]].
    apply RoundTrip.csv_row_line_safe.
    rewrite forallb_forall in H. now apply H.
Qed.

(** Importing an export: for users whose name and email hold no quote
    and no line feed, the rows that the import sends on are the exported
    users that have a name and an email, in their order. *)
Theorem import_of_export (rows : list User) :
  forallb plain_user rows = true ->
  import_rows (toCSV rows) = filter importable rows.
Proof.
  intros H. unfold import_rows. now rewrite parse_export_plain.
Qed.

Lemma import_of_export_witness :
  import_rows (toCSV [ann; mkUser (Int 7) "" "n@x.com"; bob]) = [ann; bob].
Proof.
  apply (import_of_export [ann; mkUser (Int 7) "" "n@x.com"; bob]).
  reflexivity.
Defined.

(** *** The POST loop *)

Lemma post_rows_all (rows : list User) (o : nat -> Settled User) (k : nat) :
  (forall n, (n < List.length rows)%nat -> is_rejected (o (k + n)%nat) = false) ->
  post_rows rows o k = (map import_body rows, true).
Proof.
  revert k. induction rows as [| r rs IH]; intros k H; simpl.
  - reflexivity.
  - pose proof (H 0%nat ltac:(simpl; lia)) as H0.
    rewrite Nat.add_0_r in H0.
    destruct (o k); [ | discriminate ].
    rewrite IH; [ reflexivity | ].
    intros n Hn. replace (S k + n)%nat with (k + S n)%nat by lia.
    apply H. simpl. lia.
Qed.

Lemma post_rows_stops (rows : list User) (o : nat -> Settled User)
  (k j : nat) :
  (j < List.length rows)%nat ->
  is_rejected (o (k + j)%nat) = true ->
  (forall n, (n < j)%nat -> is_rejected (o (k + n)%nat) = false) ->
  post_rows rows o k = (firstn (S j) (map import_body rows), false).
Proof.
  revert k j. induction rows as [| r rs IH]; intros k j Hj Hrej Hbefore.
  - simpl in Hj. lia.
  - cbn [post_rows]. destruct j as [| j'].
    + rewrite Nat.add_0_r in Hrej.
      destruct (o k); [ discriminate | ]. reflexivity.
    + pose proof (Hbefore 0%nat ltac:(lia)) as H0.
      rewrite Nat.add_0_r in H0.
      destruct (o k); [ | discriminate ].
      rewrite (IH (S k) j').
      * reflexivity.
      * simpl in Hj. lia.
      * replace (S k + j')%nat with (k + S j')%nat by lia. exact Hrej.
      * intros n Hn. replace (S k + n)%nat with (k + S n)%nat by lia.
        apply Hbefore. lia.
Qed.

(** The import posts name and email of every row, one after the other,
    whatever status the answers have, and its toast then counts every
    row; only a rejected [fetch] stops it, after the row it was sent for,
    and then the loop does not end. *)
Theorem import_posts_until_rejected (rows : list User)
  (o : nat -> Settled User) :
  ((forall n, (n < List.length rows)%nat -> is_rejected (o n) = false) ->
   post_rows rows o 0 = (map import_body rows, true)
   /\ forall ol w s,
        items (onImportCSV_finish rows ol w s)
        = items (fetchUsers_settle ol w s)
          ++ [mkToast (idRef (fetchUsers_settle ol w s)) Success
                ("Imported " ++ String_ (Int (Z.of_nat (List.length rows)))
                 ++ " users") None None])
  /\ (forall j,
        (j < List.length rows)%nat ->
        is_rejected (o j) = true ->
        (forall n, (n < j)%nat -> is_rejected (o n) = false) ->
        post_rows rows o 0 = (firstn (S j) (map import_body rows), false)).
Proof.
  split.
  - intros H. split; [ now apply post_rows_all | reflexivity ].
  - intros j Hj Hr Hb. now apply post_rows_stops.
Qed.

Lemma import_posts_until_rejected_witness :
  post_rows [ann; bob] (fun _ => always_500) 0
  = ([mkValues "A" "a@x.com"; mkValues "B" "b@x.com"], true)
  /\ post_rows [ann; bob] (fun _ => offline) 0
     = ([mkValues "A" "a@x.com"], false).
Proof.
  destruct (import_posts_until_rejected [ann; bob] (fun _ => always_500))
    as [Hall _].
  destruct (import_posts_until_rejected [ann; bob] (fun _ => offline))
    as [_ Hstop].
  split.
  - apply Hall. intros n _. reflexivity.
  - apply (Hstop 0%nat); [ simpl; lia | reflexivity | intros n Hn; lia ].
Defined.

End Importing.

(* ====================================================================== *)
(** * How long a toast is shown *)

Module Lifetime.

Lemma armed_frame (s s' : State) :
  items s' = items s -> timers s' = timers s -> now s' = now s ->
  all_armed s -> all_armed s'.
Proof.
  intros Hi Ht Hn H. unfold all_armed. rewrite Hi, Ht, Hn. exact H.
Qed.

Lemma armed_push (t : ToastArgs) (s : State) :
  all_armed s -> all_armed (push t s).
Proof.
  intros H x Hin. simpl in *. apply in_app_or in Hin.
  destruct Hin as [Hin | [<- | []]].
  - destruct (H x Hin) as [d [Hd Hle]]. exists d. split; [ | exact Hle ].
    apply in_or_app. now left.
  - exists (now s + toast_delay). split; [ | lia ].
    apply in_or_app. right. now left.
Qed.

Lemma hit_in (fired : list (Z * Z)) (x : Toast) (d : Z) :
  In (d, toast_id x) fired -> hit fired x = true.
Proof.
  intros H. unfold hit. apply existsb_exists.
  exists (d, toast_id x). split; [ exact H | apply Z.eqb_refl ].
Qed.

Lemma armed_advance (dt : Z) (s : State) :
  0 <= dt -> all_armed s -> all_armed (advance dt s).
Proof.
  intros Hdt H x Hin.
  rewrite Toasts.advance_items in Hin. apply filter_In in Hin.
  destruct Hin as [Hin Hnot]. apply negb_true_iff in Hnot.
  destruct (H x Hin) as [d [Hd Hle]].
  exists d. rewrite Toasts.advance_timers.
  change (now (advance dt s)) with (now s + dt).
  split; [ | lia ].
  apply filter_In. split; [ exact Hd | ].
  apply negb_true_iff.
  destruct (due (now s + dt) (d, toast_id x)) eqn:Hdue; [ | reflexivity ].
  rewrite (hit_in _ x d) in Hnot; [ discriminate | ].
  apply filter_In. now split.
Qed.

Ltac armed_step :=
  repeat first
    [ assumption
    | apply armed_push
    | match goal with
      | |- all_armed (match ?x with _ => _ end) => destruct x
      | |- all_armed (if ?b then _ else _) => destruct b
      | |- all_armed (setUsers _ ?s) =>
          apply (armed_frame s); [ reflexivity | reflexivity | reflexivity | ]
      | |- all_armed (setLoading _ ?s) =>
          apply (armed_frame s); [ reflexivity | reflexivity | reflexivity | ]
      | |- all_armed (setError _ ?s) =>
          apply (armed_frame s); [ reflexivity | reflexivity | reflexivity | ]
      | |- all_armed (setSelected _ ?s) =>
          apply (armed_frame s); [ reflexivity | reflexivity | reflexivity | ]
      | |- all_armed (setConfirmOpen _ ?s) =>
          apply (armed_frame s); [ reflexivity | reflexivity | reflexivity | ]
      | |- all_armed (cache_set _ ?s) =>
          apply (armed_frame s); [ reflexivity | reflexivity | reflexivity | ]
      | |- all_armed (localStorage_setItem _ ?s) =>
          apply (armed_frame s); [ reflexivity | reflexivity | reflexivity | ]
      end ].

Lemma exec_keeps_armed (e : Event) (pg pg' : Page) :
  all_armed (state pg) -> exec e pg = Some pg' -> all_armed (state pg').
Proof.
  intros Hf Hex. destruct e; simpl in Hex.
  - inversion Hex; subst; simpl. unfold fetchUsers_begin. simpl. armed_step.
  - inversion Hex; subst; simpl. armed_step.
  - inversion Hex; subst; simpl. unfold updateUser_begin. armed_step.
  - inversion Hex; subst; simpl. unfold removeUser_begin. armed_step.
  - inversion Hex; subst; simpl. unfold removeSelected_begin. armed_step.
  - unfold settle in Hex.
    destruct (nth_error (pending pg) k) as [[| | i prev | prev | ids prev] |];
      try discriminate;
      destruct o as [o w | o | o | os]; try discriminate.
    + inversion Hex; subst; simpl.
      unfold fetchUsers_settle, fetchUsers_catch. armed_step.
    + unfold createUser_settle in Hex.
      destruct o as [res | m]; [ | inversion Hex; subst; assumption ].
      destruct (ok res); [ | inversion Hex; subst; assumption ].
      destruct (body res); inversion Hex; subst; simpl; armed_step.
    + inversion Hex; subst; simpl.
      unfold updateUser_settle, updateUser_catch. armed_step.
    + inversion Hex; subst; simpl.
      unfold removeUser_settle, removeUser_catch. armed_step.
    + inversion Hex; subst; simpl.
      unfold removeSelected_settle. armed_step.
  - destruct (click_action toast (state pg)) as [s' |] eqn:Hc;
      [ | discriminate ].
    inversion Hex; subst; simpl.
    unfold click_action in Hc.
    destruct (find (fun x => toast_id x =? toast) (mounted (state pg)));
      [ | discriminate ].
    destruct (action t) as [[[u |]] |]; destruct (actionLabel t);
      try discriminate; inversion Hc; subst; simpl; armed_step.
  - destruct (Z.leb_spec 0 dt); [ | discriminate ].
    inversion Hex; subst; simpl. now apply armed_advance.
  - inversion Hex; subst; simpl. unfold onmessage_update. armed_step.
  - inversion Hex; subst; simpl. armed_step.
  - inversion Hex; subst; simpl. armed_step.
Qed.

Lemma run_keeps_armed (es : list Event) (pg pg' : Page) :
  all_armed (state pg) -> run es pg = Some pg' -> all_armed (state pg').
Proof.
  revert pg. induction es as [| e r IH]; intros pg H Hrun; simpl in Hrun.
  - inversion Hrun; subst. exact H.
  - destruct (exec e pg) as [pg1 |] eqn:Hex; [ | discriminate ].
    apply (IH pg1); [ | exact Hrun ].
    now apply (exec_keeps_armed e pg).
Qed.

(** Whatever has happened on the page since it was opened, no toast is
    left in the toast list once another 4000 ms have passed; a toast
    that has left the list may still play its exit animation. *)
Theorem toasts_gone_after_delay (es : list Event)
  (ls : option (list User)) (pg : Page) (dt : Z) :
  run es (mkPage (initial_state ls) []) = Some pg ->
  toast_delay <= dt ->
  items (advance dt (state pg)) = [].
Proof.
  intros Hrun Hdt.
  assert (Harm : all_armed (state pg)).
  { apply (run_keeps_armed es (mkPage (initial_state ls) [])); auto.
    intros t []. }
  destruct (items (advance dt (state pg))) as [| x l] eqn:Hitems;
    [ reflexivity | exfalso ].
  assert (Hin : In x (items (advance dt (state pg))))
    by (rewrite Hitems; now left).
  rewrite Toasts.advance_items in Hin. apply filter_In in Hin.
  destruct Hin as [Hin Hnot]. apply negb_true_iff in Hnot.
  destruct (Harm x Hin) as [d [Hd Hle]].
  rewrite (hit_in _ x d) in Hnot; [ discriminate | ].
  apply filter_In. split; [ exact Hd | ].
  unfold due; simpl. apply Z.leb_le. lia.
Qed.

Lemma toasts_gone_after_delay_witness :
  exists pg,
    run load_then_delete (mkPage (initial_state None) []) = Some pg
    /\ List.length (items (state pg)) = 1%nat
    /\ items (advance 4000 (state pg)) = [].
Proof.
  eexists. split; [ reflexivity | ]. split; [ reflexivity | ].
  apply (toasts_gone_after_delay load_then_delete None).
  - reflexivity.
  - unfold toast_delay. lia.
Defined.

(** *** Toast ids *)

Lemma tidy_frame (s s' : State) :
  items s' = items s -> timers s' = timers s -> idRef s' = idRef s ->
  leaving s' = leaving s ->
  tidy s -> tidy s'.
Proof.
  intros Hi Ht Hr Hl [Hf Hn]. split.
  - apply (Toasts.fresh_frame s); auto. unfold mounted. now rewrite Hi, Hl.
  - now rewrite Hi.
Qed.

Lemma tidy_exit (i : Z) (s : State) : tidy s -> tidy (exit_complete i s).
Proof.
  intros [Hf Hn]. split; [ now apply Toasts.fresh_exit | exact Hn ].
Qed.

Lemma tidy_push (t : ToastArgs) (s : State) : tidy s -> tidy (push t s).
Proof.
  intros [Hf Hn]. split; [ now apply Toasts.fresh_push | ].
  simpl. rewrite map_app. simpl.
  apply NoDup_app; [ exact Hn | repeat constructor; intros [] | ].
  intros x Hx [<- | []].
  apply in_map_iff in Hx. destruct Hx as [y [Hy Hin]].
  destruct Hf as [_ Hit].
  assert (Hm : In y (mounted s)) by (apply in_or_app; now left).
  specialize (Hit y Hm). lia.
Qed.

Lemma NoDup_map_filter (f : Toast -> bool) (l : list Toast) :
  NoDup (map toast_id l) -> NoDup (map toast_id (filter f l)).
Proof.
  induction l as [| x r IH]; simpl; intros H; [ constructor | ].
  inversion H as [| ? ? Hnot Hr]; subst.
  destruct (f x); simpl; [ constructor | ]; auto.
  intros Hin. apply Hnot.
  apply in_map_iff in Hin. destruct Hin as [y [Hy Hin]].
  apply filter_In in Hin. apply in_map_iff. exists y. tauto.
Qed.

Lemma tidy_advance (dt : Z) (s : State) : tidy s -> tidy (advance dt s).
Proof.
  intros [Hf Hn]. split; [ now apply Toasts.fresh_advance | ].
  rewrite Toasts.advance_items. now apply NoDup_map_filter.
Qed.

Ltac tidy_step :=
  repeat first
    [ assumption
    | apply tidy_push
    | apply tidy_advance
    | apply tidy_exit
    | match goal with
      | |- tidy (match ?x with _ => _ end) => destruct x
      | |- tidy (if ?b then _ else _) => destruct b
      | |- tidy (setUsers _ ?s) =>
          apply (tidy_frame s);
            [ reflexivity | reflexivity | reflexivity | reflexivity | ]
      | |- tidy (setLoading _ ?s) =>
          apply (tidy_frame s);
            [ reflexivity | reflexivity | reflexivity | reflexivity | ]
      | |- tidy (setError _ ?s) =>
          apply (tidy_frame s);
            [ reflexivity | reflexivity | reflexivity | reflexivity | ]
      | |- tidy (setSelected _ ?s) =>
          apply (tidy_frame s);
            [ reflexivity | reflexivity | reflexivity | reflexivity | ]
      | |- tidy (setConfirmOpen _ ?s) =>
          apply (tidy_frame s);
            [ reflexivity | reflexivity | reflexivity | reflexivity | ]
      | |- tidy (cache_set _ ?s) =>
          apply (tidy_frame s);
            [ reflexivity | reflexivity | reflexivity | reflexivity | ]
      | |- tidy (localStorage_setItem _ ?s) =>
          apply (tidy_frame s);
            [ reflexivity | reflexivity | reflexivity | reflexivity | ]
      end ].

Lemma exec_keeps_tidy (e : Event) (pg pg' : Page) :
  tidy (state pg) -> exec e pg = Some pg' -> tidy (state pg').
Proof.
  intros Hf Hex. destruct e; simpl in Hex.
  - inversion Hex; subst; simpl. unfold fetchUsers_begin. simpl. tidy_step.
  - inversion Hex; subst; simpl. tidy_step.
  - inversion Hex; subst; simpl. unfold updateUser_begin. tidy_step.
  - inversion Hex; subst; simpl. unfold removeUser_begin. tidy_step.
  - inversion Hex; subst; simpl. unfold removeSelected_begin. tidy_step.
  - unfold settle in Hex.
    destruct (nth_error (pending pg) k) as [[| | i prev | prev | ids prev] |];
      try discriminate;
      destruct o as [o w | o | o | os]; try discriminate.
    + inversion Hex; subst; simpl.
      unfold fetchUsers_settle, fetchUsers_catch. tidy_step.
    + unfold createUser_settle in Hex.
      destruct o as [res | m]; [ | inversion Hex; subst; assumption ].
      destruct (ok res); [ | inversion Hex; subst; assumption ].
      destruct (body res); inversion Hex; subst; simpl; tidy_step.
    + inversion Hex; subst; simpl.
      unfold updateUser_settle, updateUser_catch. tidy_step.
    + inversion Hex; subst; simpl.
      unfold removeUser_settle, removeUser_catch. tidy_step.
    + inversion Hex; subst; simpl.
      unfold removeSelected_settle. tidy_step.
  - destruct (click_action toast (state pg)) as [s' |] eqn:Hc;
      [ | discriminate ].
    inversion Hex; subst; simpl.
    unfold click_action in Hc.
    destruct (find (fun x => toast_id x =? toast) (mounted (state pg)));
      [ | discriminate ].
    destruct (action t) as [[[u |]] |]; destruct (actionLabel t);
      try discriminate; inversion Hc; subst; simpl; tidy_step.
  - destruct (0 <=? dt); [ | discriminate ].
    inversion Hex; subst; simpl. tidy_step.
  - inversion Hex; subst; simpl. unfold onmessage_update. tidy_step.
  - inversion Hex; subst; simpl. tidy_step.
  - inversion Hex; subst; simpl. tidy_step.
Qed.

(** Whatever happens on the page after it is opened, the toasts shown
    have different ids, all below the next id to hand out. *)
Theorem toast_ids_unique (es : list Event) (ls : option (list User))
  (pg : Page) :
  run es (mkPage (initial_state ls) []) = Some pg ->
  NoDup (map toast_id (items (state pg)))
  /\ forall t, In t (items (state pg)) -> toast_id t < idRef (state pg).
Proof.
  intros Hrun.
  assert (H : tidy (state pg)).
  { revert Hrun.
    assert (H0 : tidy (state (mkPage (initial_state ls) []))).
    { split; [ apply Toasts.fresh_initial | constructor ]. }
    generalize dependent (mkPage (initial_state ls) []).
    induction es as [| e r IH]; intros pg0 H0 Hrun; simpl in Hrun.
    - inversion Hrun; subst. exact H0.
    - destruct (exec e pg0) as [pg1 |] eqn:Hex; [ | discriminate ].
      apply (IH pg1); [ | exact Hrun ].
      now apply (exec_keeps_tidy e pg0). }
  destruct H as [[_ Hit] Hn]. split; [ assumption | ].
  intros t Ht. apply Hit. apply in_or_app. now left.
Qed.

Lemma toast_ids_unique_witness :
  exists pg,
    run load_then_delete (mkPage (initial_state None) []) = Some pg
    /\ NoDup (map toast_id (items (state pg))).
Proof.
  eexists. split; [ reflexivity | ].
  apply (toast_ids_unique load_then_delete None). reflexivity.
Defined.

End Lifetime.

(* ====================================================================== *)
(** * Refreshing the list *)

Module Refresh.

Lemma saved_frame (s s' : State) :
  cache s' = cache s -> localStorage s' = localStorage s ->
  cache_saved s -> cache_saved s'.
Proof.
  intros Hc Hl H. unfold cache_saved. now rewrite Hc, Hl.
Qed.

Lemma saved_advance (dt : Z) (s : State) :
  cache_saved s -> cache_saved (advance dt s).
Proof.
  destruct (Toasts.expire_all_frame
              (filter (due (now s + dt)) (timers s)) s)
    as (_ & Hc & Hl & _).
  apply saved_frame; unfold advance; simpl; assumption.
Qed.

Lemma saved_exit (i : Z) (s : State) :
  cache_saved s -> cache_saved (exit_complete i s).
Proof. apply saved_frame; reflexivity. Qed.

Ltac saved_step :=
  repeat first
    [ assumption
    | apply saved_advance
    | apply saved_exit
    | match goal with
      | |- cache_saved (match ?x with _ => _ end) => destruct x
      | |- cache_saved (if ?b then _ else _) => destruct b
      | |- cache_saved (setLoading _ (localStorage_setItem ?d
                          (setUsers ?d (cache_set ?d _)))) => reflexivity
      | |- cache_saved (push _ ?s) =>
          apply (saved_frame s); [ reflexivity | reflexivity | ]
      | |- cache_saved (setUsers _ ?s) =>
          apply (saved_frame s); [ reflexivity | reflexivity | ]
      | |- cache_saved (setLoading _ ?s) =>
          apply (saved_frame s); [ reflexivity | reflexivity | ]
      | |- cache_saved (setError _ ?s) =>
          apply (saved_frame s); [ reflexivity | reflexivity | ]
      | |- cache_saved (setSelected _ ?s) =>
          apply (saved_frame s); [ reflexivity | reflexivity | ]
      | |- cache_saved (setConfirmOpen _ ?s) =>
          apply (saved_frame s); [ reflexivity | reflexivity | ]
      end ].

Lemma exec_keeps_saved (e : Event) (pg pg' : Page) :
  write_succeeds e = true ->
  cache_saved (state pg) -> exec e pg = Some pg' -> cache_saved (state pg').
Proof.
  intros Hw Hf Hex. destruct e; simpl in Hex.
  - inversion Hex; subst; simpl. unfold fetchUsers_begin.
    destruct (cache (setError None (setLoading true (state pg))));
      saved_step.
  - inversion Hex; subst; simpl. saved_step.
  - inversion Hex; subst; simpl. unfold updateUser_begin. saved_step.
  - inversion Hex; subst; simpl. unfold removeUser_begin. saved_step.
  - inversion Hex; subst; simpl. unfold removeSelected_begin. saved_step.
  - unfold settle in Hex.
    destruct (nth_error (pending pg) k) as [[| | i prev | prev | ids prev] |];
      try discriminate;
      destruct o as [o w | o | o | os]; try discriminate.
    + inversion Hex; subst; simpl.
      unfold fetchUsers_settle, fetchUsers_catch.
      destruct o as [res | m].
      * destruct (ok res); [ destruct (body res) as [data | m] | ].
        -- destruct w as [| m]; [ | discriminate ].
           unfold cache_saved. reflexivity.
        -- destruct (localStorage (state pg)) eqn:Hl; saved_step.
        -- destruct (localStorage (state pg)) eqn:Hl; saved_step.
      * destruct (localStorage (state pg)) eqn:Hl; saved_step.
    + unfold createUser_settle in Hex.
      destruct o as [res | m]; [ | inversion Hex; subst; assumption ].
      destruct (ok res); [ | inversion Hex; subst; assumption ].
      destruct (body res); inversion Hex; subst; simpl; saved_step.
    + inversion Hex; subst; simpl.
      unfold updateUser_settle, updateUser_catch. saved_step.
    + inversion Hex; subst; simpl.
      unfold removeUser_settle, removeUser_catch. saved_step.
    + inversion Hex; subst; simpl.
      unfold removeSelected_settle. saved_step.
  - destruct (click_action toast (state pg)) as [s' |] eqn:Hc;
      [ | discriminate ].
    inversion Hex; subst; simpl.
    unfold click_action in Hc.
    destruct (find (fun x => toast_id x =? toast) (mounted (state pg)));
      [ | discriminate ].
    destruct (action t) as [[[u |]] |]; destruct (actionLabel t);
      try discriminate; inversion Hc; subst; simpl; saved_step.
  - destruct (0 <=? dt); [ | discriminate ].
    inversion Hex; subst; simpl. saved_step.
  - inversion Hex; subst; simpl. unfold onmessage_update. saved_step.
  - inversion Hex; subst; simpl. saved_step.
  - inversion Hex; subst; simpl. saved_step.
Qed.

Lemma run_keeps_saved (es : list Event) (pg pg' : Page) :
  writes_succeed es = true ->
  cache_saved (state pg) -> run es pg = Some pg' -> cache_saved (state pg').
Proof.
  revert pg. induction es as [| e r IH]; intros pg Hw H Hrun;
    simpl in Hrun.
  - inversion Hrun; subst. exact H.
  - simpl in Hw. apply andb_true_iff in Hw. destruct Hw as [He Hr].
    destruct (exec e pg) as [pg1 |] eqn:Hex; [ | discriminate ].
    apply (IH pg1); [ exact Hr | | exact Hrun ].
    now apply (exec_keeps_saved e pg).
Qed.

(** As long as no write of the offline snapshot has thrown since the
    page was opened: once a load has filled the module cache, the offline
    snapshot holds the same list, a refresh shows the cached list at once,
    and a refresh that fails ends with that same list, no error and
    loading off: what the page held before the refresh (edits not yet
    confirmed, a list pushed over the socket) is replaced by the last
    list a load brought. *)
Theorem failed_refresh_shows_last_load (es : list Event)
  (ls : option (list User)) (pg : Page) (d : list User)
  (o : Settled (list User)) (w : Write) :
  run es (mkPage (initial_state ls) []) = Some pg ->
  writes_succeed es = true ->
  cache (state pg) = Some d ->
  load_failed o = true ->
  localStorage (state pg) = Some d
  /\ users (fetchUsers_begin (state pg)) = d
  /\ users (fetchUsers_settle o w (fetchUsers_begin (state pg))) = d
  /\ error (fetchUsers_settle o w (fetchUsers_begin (state pg))) = None
  /\ loading (fetchUsers_settle o w (fetchUsers_begin (state pg))) = false.
Proof.
  intros Hrun Hw Hc Hf.
  assert (Hs : cache_saved (state pg)).
  { apply (run_keeps_saved es (mkPage (initial_state ls) [])); auto.
    exact I. }
  unfold cache_saved in Hs. rewrite Hc in Hs.
  assert (Hb : fetchUsers_begin (state pg)
               = setUsers d (setError None (setLoading true (state pg)))).
  { unfold fetchUsers_begin. simpl. now rewrite Hc. }
  assert (Hcatch : forall m,
             fetchUsers_catch m (fetchUsers_begin (state pg))
             = setLoading false
                 (push (plain Info "Loaded offline cache")
                       (setUsers d (fetchUsers_begin (state pg))))).
  { intros m. unfold fetchUsers_catch. rewrite Hb at 1. simpl.
    now rewrite Hs. }
  split; [ exact Hs | ].
  split; [ now rewrite Hb | ].
  destruct o as [res | m]; unfold fetchUsers_settle.
  - destruct (ok res) eqn:Hok.
    + destruct (body res) eqn:Hbody.
      * unfold load_failed in Hf. rewrite Hok, Hbody in Hf. discriminate.
      * rewrite Hcatch, Hb. repeat split; reflexivity.
    + rewrite Hcatch, Hb. repeat split; reflexivity.
  - rewrite Hcatch, Hb. repeat split; reflexivity.
Qed.

Lemma failed_refresh_shows_last_load_witness :
  exists pg,
    run load_then_delete (mkPage (initial_state None) []) = Some pg
    /\ users (state pg) = []
    /\ users (fetchUsers_settle (Rejected "Failed to fetch") Written
                (fetchUsers_begin (state pg))) = [eve].
Proof.
  eexists. split; [ reflexivity | ]. split; [ reflexivity | ].
  apply (failed_refresh_shows_last_load load_then_delete None _ [eve]
           (Rejected "Failed to fetch") Written); reflexivity.
Defined.

(** When the write of the snapshot throws, the load that brought a new
    list ends in the catch block: the cache holds the new list, the
    snapshot and the users the old one. *)
Lemma load_with_failed_write :
  let s := fetchUsers_settle (Fulfilled (mkResponse 200 (Json [eve])))
             (Throws "QuotaExceededError")
             (fetchUsers_begin (initial_state (Some [ann]))) in
  cache s = Some [eve] /\ localStorage s = Some [ann]
  /\ users s = [ann] /\ error s = None.
Proof. repeat split; reflexivity. Qed.

End Refresh.

(* ====================================================================== *)
(** * Delete and undo *)

Module UndoDelete.

Lemma filter_all {A : Type} (f : A -> bool) (l : list A) :
  (forall x, In x l -> f x = true) -> filter f l = l.
Proof.
  induction l as [| x r IH]; simpl; intros H; [ reflexivity | ].
  rewrite (H x (or_introl eq_refl)). f_equal.
  apply IH. intros y Hy. apply H. now right.
Qed.

Lemma perm_put_back (i : number) (l : list User) (u : User) :
  unique_ids l ->
  find_user i l = Some u ->
  Permutation (u :: filter (fun x => negb (strict_eq (id x) i)) l) l.
Proof.
  unfold unique_ids, find_user.
  induction l as [| x r IH]; simpl; intros Hn Hf; [ discriminate | ].
  inversion Hn as [| ? ? Hnot Hr]; subst.
  destruct (strict_eq (id x) i) eqn:Hx; simpl.
  - inversion Hf; subst. rewrite filter_all; [ reflexivity | ].
    intros y Hy. apply negb_true_iff.
    destruct (strict_eq (id y) i) eqn:Hyi; [ | reflexivity ].
    exfalso. apply Hnot.
    apply Sync.strict_eq_eq in Hx. apply Sync.strict_eq_eq in Hyi.
    rewrite Hx, <- Hyi. now apply in_map.
  - rewrite perm_swap. constructor. now apply IH.
Qed.

(** A delete followed by its Undo, in a list without double ids: the
    Undo of the toast puts the deleted record back at the front, so the
    list holds the same users as before the delete, in another order,
    and the ids are still unique. *)
Theorem delete_then_undo_restores (s : State) (i : number) (u : User) :
  fresh_ids s ->
  unique_ids (users s) ->
  find_user i (users s) = Some u ->
  exists s2,
    click_action (idRef s) (removeUser_begin i s) = Some s2
    /\ users s2 = u :: filter (fun x => negb (strict_eq (id x) i)) (users s)
    /\ Permutation (users s2) (users s)
    /\ unique_ids (users s2).
Proof.
  intros [_ Hit] Huniq Hfind.
  exists (setUsers (u :: filter (fun x => negb (strict_eq (id x) i)) (users s))
                   (removeUser_begin i s)).
  assert (Hperm : Permutation
            (u :: filter (fun x => negb (strict_eq (id x) i)) (users s))
            (users s)) by now apply perm_put_back.
  split; [ | split; [ reflexivity | split ] ].
  - unfold click_action.
    set (T := mkToast (idRef s) Info "User deleted" (Some "Undo"%string)
                      (Some (Undo (find_user i (users s))))).
    change (mounted (removeUser_begin i s))
      with ((items s ++ [T]) ++ leaving s).
    rewrite (Toasts.find_the_toast (idRef s) _ T).
    + simpl. rewrite Hfind. reflexivity.
    + rewrite !in_app_iff. simpl. tauto.
    + reflexivity.
    + intros x Hx Hid. rewrite !in_app_iff in Hx. simpl in Hx.
      destruct Hx as [[Hx | [<- | []]] | Hx]; [ | reflexivity | ];
        exfalso;
        (assert (Hm : In x (mounted s)) by (apply in_or_app; tauto));
        specialize (Hit x Hm); lia.
  - exact Hperm.
  - unfold unique_ids in *. simpl users.
    apply (Permutation_NoDup (l := map id (users s))); [ | exact Huniq ].
    apply Permutation_map. now symmetry.
Qed.

Lemma delete_then_undo_restores_witness :
  exists s2,
    click_action 1 (removeUser_begin (Int 2) (ready [ann; bob; cat]))
    = Some s2
    /\ users s2 = [bob; ann; cat].
Proof.
  destruct (delete_then_undo_restores (ready [ann; bob; cat]) (Int 2) bob)
    as [s2 [Hc [Hu _]]].
  - split; intros x [].
  - unfold unique_ids; simpl.
    repeat constructor; simpl; intros H;
      repeat (destruct H as [H | H]; [ discriminate | ]); exact H.
  - reflexivity.
  - exists s2. split; [ exact Hc | exact Hu ].
Defined.

End UndoDelete.

(* ====================================================================== *)
(** * The page against the REST service *)

Module EndToEnd.

Import Server.

Lemma digits_step (c : ascii) (r : string) (acc v : Z) :
  digit_of 10 c = Some v ->
  digits_prefix 10 (String c r) (Some acc)
  = digits_prefix 10 r (Some (10 * acc + v)).
Proof. intros H. cbn [digits_prefix]. now rewrite H. Qed.

Lemma digits_acc (d : Decimal.uint) (acc : positive) :
  digits_prefix 10 (NilEmpty.string_of_uint d) (Some (Z.pos acc))
  = Some (Z.pos (Pos.of_uint_acc d acc)).
Proof.
  revert acc. induction d; intros acc; [ reflexivity | .. ];
    cbn [NilEmpty.string_of_uint Pos.of_uint_acc];
    erewrite digits_step by reflexivity;
    rewrite <- IHd; do 2 f_equal;
    match goal with
    | |- 10 * _ + ?v = _ =>
        let v' := eval vm_compute in v in change v with v'
    end; lia.
Qed.

Lemma digits_zero (d : Decimal.uint) :
  digits_prefix 10 (NilEmpty.string_of_uint d) (Some 0)
  = Some (Z.of_N (Pos.of_uint d)).
Proof.
  induction d; [ reflexivity | .. ];
    cbn [NilEmpty.string_of_uint Pos.of_uint];
    erewrite digits_step by reflexivity;
    [ exact IHd | apply (digits_acc d) .. ].
Qed.

Lemma digits_start (d : Decimal.uint) :
  d <> Decimal.Nil ->
  digits_prefix 10 (NilEmpty.string_of_uint d) None
  = Some (Z.of_N (Pos.of_uint d)).
Proof.
  intros Hd. rewrite <- digits_zero. destruct d; [ congruence | .. ];
    reflexivity.
Qed.

Lemma digits_of_positive (p : positive) :
  digits_prefix 10 (NilEmpty.string_of_uint (Pos.to_uint p)) None
  = Some (Z.pos p).
Proof.
  rewrite digits_start by apply DecimalPos.Unsigned.to_uint_nonnil.
  now rewrite DecimalPos.Unsigned.of_to.
Qed.

Lemma digit_not (c a : ascii) :
  is_digit c = true -> is_digit a = false -> Ascii.eqb c a = false.
Proof.
  intros Hc Ha. apply Ascii.eqb_neq. intros ->. congruence.
Qed.

Lemma split_radix_digits (s : string) :
  all_chars is_digit s = true -> split_radix s = (10, s).
Proof.
  intros H. destruct s as [| a [| b r]]; try reflexivity.
  simpl in H. apply andb_true_iff in H. destruct H as [_ H].
  apply andb_true_iff in H. destruct H as [Hb _].
  unfold split_radix.
  rewrite (digit_not b "x"%char Hb eq_refl),
          (digit_not b "X"%char Hb eq_refl).
  now rewrite andb_false_r.
Qed.

Lemma parseInt_positive (p : positive) (sign : Z) (t : string) :
  split_sign (trimStart t)
  = (sign, NilEmpty.string_of_uint (Pos.to_uint p)) ->
  parseInt t = Int (sign * Z.pos p).
Proof.
  intros Hs. unfold parseInt. rewrite Hs. simpl fst. simpl snd.
  rewrite split_radix_digits by apply RoundTrip.string_of_uint_digits.
  simpl fst. simpl snd. now rewrite digits_of_positive.
Qed.

(** The routes read back the id that the page puts into the URL. *)
Lemma parseInt_id_param (i : number) (q : string) :
  id_param i = Some q -> parseInt q = i.
Proof.
  unfold id_param. destruct (safe_id i); [ | discriminate ].
  intros Hq. injection Hq as Hq. subst q.
  destruct i as [[| p | p] |]; try reflexivity.
  - rewrite (parseInt_positive p 1); [ reflexivity | ].
    destruct (RoundTrip.first_digit p) as [c [r [Hs Hc]]].
    change (String_ (Int (Z.pos p)))
      with (NilEmpty.string_of_uint (Pos.to_uint p)).
    rewrite Hs.
    assert (Hw : is_white c = false).
    { pose proof (RoundTrip.digit_token c Hc) as Ht.
      unfold token_char, not_white in Ht.
      apply andb_true_iff in Ht. destruct Ht as [_ Ht].
      now apply negb_true_iff in Ht. }
    simpl. rewrite Hw. unfold split_sign.
    rewrite (digit_not c "-"%char Hc eq_refl),
            (digit_not c "+"%char Hc eq_refl).
    reflexivity.
  - rewrite (parseInt_positive p (-1)); reflexivity.
Qed.

Lemma confirm_is_idle (i : number) (values : FormValues) (l : list User) :
  map (fun u => if strict_eq (id u) i
                then mkUser i (v_name values) (v_email values) else u)
      (map (fun u => if strict_eq (id u) i then apply_values values u
                     else u) l)
  = map (fun u => if strict_eq (id u) i then apply_values values u else u) l.
Proof.
  rewrite map_map. apply map_ext. intros u.
  destruct (strict_eq (id u) i) eqn:He; simpl.
  - rewrite He. unfold apply_values.
    apply Sync.strict_eq_eq in He. now rewrite He.
  - now rewrite He.
Qed.

(** An update against the service, for an id that is a safe integer,
    which JavaScript prints digit by digit. When the UPDATE touched a row,
    the answer echoes id, name and email, and confirming it leaves the
    list as the optimistic write made it; when the query failed or
    touched no row, the list is put back as it was before the update. *)
Theorem update_against_service (s : State) (i : number) (p : string)
  (values : FormValues) (w : WriteResult) :
  id_param i = Some p ->
  users (updateUser_settle i (users s)
           (user_reply (put_user p values w))
           (updateUser_begin i values s))
  = match w with
    | WriteErr _ => users s
    | WriteOk affectedRows _ =>
        if affectedRows =? 0 then users s
        else users (updateUser_begin i values s)
    end.
Proof.
  intros Hp. unfold put_user. rewrite (parseInt_id_param i p Hp).
  destruct w as [m | n k]; [ reflexivity | ].
  destruct (n =? 0); [ reflexivity | ].
  unfold user_reply, updateUser_settle. simpl.
  destruct (truthy i); simpl; [ | reflexivity ].
  apply confirm_is_idle.
Qed.

Lemma update_against_service_witness :
  id_param (Int 5) = Some "5"%string
  /\ users (updateUser_settle (Int 5) [ann; eve]
              (user_reply
                 (put_user "5" (mkValues "Eva" "eva@x.org")
                    (WriteOk 1 0)))
              (updateUser_begin (Int 5) (mkValues "Eva" "eva@x.org")
                 (setUsers [ann; eve] (initial_state None))))
     = [ann; mkUser (Int 5) "Eva" "eva@x.org"].
Proof.
  split; [ reflexivity | ].
  exact (update_against_service (setUsers [ann; eve] (initial_state None))
           (Int 5) "5" (mkValues "Eva" "eva@x.org") (WriteOk 1 0)
           eq_refl).
Defined.

(** A delete against the service. When the DELETE touched a row, the
    record stays out of the list; when the query failed or the row was
    gone already, the page puts the record back. *)
Theorem delete_against_service (s : State) (i : number) (w : WriteResult) :
  users (removeUser_settle (users s) (plain_reply (delete_user w))
           (removeUser_begin i s))
  = match w with
    | WriteErr _ => users s
    | WriteOk affectedRows _ =>
        if affectedRows =? 0 then users s
        else filter (fun u => negb (strict_eq (id u) i)) (users s)
    end.
Proof.
  destruct w as [m | n k]; [ reflexivity | ].
  unfold delete_user. destruct (n =? 0); reflexivity.
Qed.

(** The first load against the service with no offline snapshot. Rows
    from the SELECT become the list and the cache; they become the
    snapshot too when the browser accepts the write, and when the write
    throws the rows stay on screen and in the cache, no snapshot is
    stored and the banner carries the message of the failed write. When
    the query fails the banner reads HTTP 500, not the message of the
    database, and the list stays empty. *)
Theorem load_against_service (r : SelectResult) (w : Write) :
  let s := fetchUsers_settle (list_reply (get_users r)) w
             (fetchUsers_begin (initial_state None)) in
  loading s = false
  /\ match r, w with
     | SelectRows rows, Written =>
         users s = rows /\ error s = None
         /\ cache s = Some rows /\ localStorage s = Some rows
     | SelectRows rows, Throws m =>
         users s = rows
         /\ error s = Some (message_or m "Failed to load")
         /\ cache s = Some rows /\ localStorage s = None
     | SelectErr _, _ =>
         users s = [] /\ error s = Some "HTTP 500"%string
         /\ cache s = None /\ localStorage s = None
     end.
Proof.
  destruct r, w; simpl; repeat split; reflexivity.
Qed.

End EndToEnd.
